(** * gapless.js: the playback controller of [src/index.ts]

    A shallow embedding of the [Player] class and of [getTimeDisplay],
    followed by the properties of the controller.

    Modelling conventions.
    - A JavaScript [number] that has to be finite (volumes, positions)
      is an exact rational [Q]; rounding of IEEE doubles is not modelled.
      [getTimeDisplay] also receives the non-finite numbers, so its
      argument has the type [number] below.
    - Arrays of tracks are [list PlayerTrack].  The class makes
      [state.nextTracks] and [nonShuffledNextTracks] one array only while
      shuffle is off, and every in-place [shift()] of that array is followed
      by the assignment that makes both fields equal again, so lists by
      value agree with the arrays by reference.  A shuffle override is taken
      to return an array of its own, as [defaultShuffle] does, and observers
      not to write to the snapshots they receive.  (After an override has
      thrown in [enableShuffle] the flag is set while the two fields can
      still be one array; what a later [shift()] does to the shadow list of
      such an instance is not modelled, and no theorem speaks of the shadow
      list after a pop with shuffle on.)
    - An [HTMLAudioElement] is a record; a slot ([audio1], [audio2]) holds
      [Some] element or [None] for [null].  An element whose slot has been
      set to [null] still exists in the browser: it is kept in [released]
      exactly as it was when the slot let go of it.
    - Observers ([onTrackStart], [onTrackEnd], [onStateChanged], [onError])
      are modelled by their presence and by the sequence of calls made to
      them ([notifications], oldest first).
    - The backend ([new Audio()], [audio.play()], [Math.random()]) is the
      [Backend] an instance is created with.
    - [await] is sequential: no other command interleaves. *)

From Stdlib Require Import ZArith QArith Qround List String Ascii Bool Lia.
From Stdlib Require Import DecimalString Permutation Lqa.
Import ListNotations.

Local Open Scope string_scope.
Local Open Scope list_scope.

(** ** JavaScript numbers, as far as [getTimeDisplay] needs them *)

Module JS.

Inductive number : Type :=
| Num (q : Q)
| NaN
| Infinity
| NegInfinity.

(** [x >= c] for a finite constant [c]; every comparison with [NaN] is false. *)
Definition ge_const (x : number) (c : Q) : bool :=
  match x with
  | Num q => Qle_bool c q
  | Infinity => true
  | NaN | NegInfinity => false
  end.

(** [x / c] for a finite constant [c > 0]. *)
Definition div_const (x : number) (c : Q) : number :=
  match x with
  | Num q => Num (q / c)
  | other => other
  end.

(** [Math.floor]: an integer, or the non-finite argument itself. *)
Definition Math_floor (x : number) : number :=
  match x with
  | Num q => Num (inject_Z (Qfloor q))
  | other => other
  end.

(** Decimal digits of an integer, with a leading minus sign when negative. *)
Definition Z_toString (z : Z) : string :=
  NilZero.string_of_int (Z.to_int z).

(** [String(x)] for the results of [Math.floor]: integers print in decimal
    (the exponent notation JavaScript switches to from 1e21 on is not
    modelled). *)
Definition toString (x : number) : string :=
  match x with
  | Num q => Z_toString (Qfloor q)
  | NaN => "NaN"
  | Infinity => "Infinity"
  | NegInfinity => "-Infinity"
  end.

(** Truncation towards zero, and the remainder operator [a % n] on finite
    numbers for a constant [n > 0]: the result has the sign of [a]. *)
Definition Qtrunc (q : Q) : Z :=
  if Qle_bool 0 q then Qfloor q else Qceiling q.

Definition rem_const (a : Q) (n : Z) : Q :=
  a - inject_Z (n * Qtrunc (a / inject_Z n)).

(** Truthiness of a string: the empty string is falsy. *)
Definition truthy (s : string) : bool :=
  match s with
  | EmptyString => false
  | _ => true
  end.

End JS.

(** ** [getTimeDisplay] (index.ts, lines 44-71) *)

Definition getTimeDisplay (seconds : JS.number) : string :=
  (* [remainingTime = seconds], or 0 unless [Number.isFinite(seconds)] *)
  let remainingTime : Q :=
    match seconds with
    | JS.Num q => q
    | JS.NaN | JS.Infinity | JS.NegInfinity => 0
    end in
  let '(remainingTime, result) :=
    if JS.ge_const seconds 3600
    then (JS.rem_const remainingTime 3600,
          (JS.toString (JS.Math_floor (JS.div_const seconds 3600)) ++ ":")%string)
    else (remainingTime, "") in
  let minutes : Z := Qfloor (remainingTime / 60) in
  let remainingTime := JS.rem_const remainingTime 60 in
  let result :=
    if JS.truthy result && (minutes <? 10)%Z
    then (result ++ "0")%string else result in
  let result := (result ++ JS.Z_toString minutes ++ ":")%string in
  let result :=
    if negb (Qle_bool 10 remainingTime) then (result ++ "0")%string else result in
  (result ++ JS.Z_toString (Qfloor remainingTime))%string.

(** ** Data model (index.ts, lines 1-42) *)

Inductive RepeatMode : Type :=
| noRepeat
| repeatOnce
| repeatFull.

Record PlayerTrack : Type := mkTrack {
  id : string;
  url : string
}.

Record PlayerState : Type := mkState {
  volume : Q;
  isPaused : bool;
  position : Q;
  repeatMode : RepeatMode;
  isShuffled : bool;
  currentTrack : option PlayerTrack;
  (* Priority tracks are not affected by shuffle *)
  priorityTracks : list PlayerTrack;
  (* Tracks next up in the queue *)
  nextTracks : list PlayerTrack;
  (* Tracks previously played or skipped due to play index *)
  previousTracks : list PlayerTrack
}.

Definition set_volume (v : Q) (s : PlayerState) : PlayerState :=
  mkState v (isPaused s) (position s) (repeatMode s) (isShuffled s)
    (currentTrack s) (priorityTracks s) (nextTracks s) (previousTracks s).

Definition set_isPaused (b : bool) (s : PlayerState) : PlayerState :=
  mkState (volume s) b (position s) (repeatMode s) (isShuffled s)
    (currentTrack s) (priorityTracks s) (nextTracks s) (previousTracks s).

Definition set_position (x : Q) (s : PlayerState) : PlayerState :=
  mkState (volume s) (isPaused s) x (repeatMode s) (isShuffled s)
    (currentTrack s) (priorityTracks s) (nextTracks s) (previousTracks s).

Definition set_repeatMode (m : RepeatMode) (s : PlayerState) : PlayerState :=
  mkState (volume s) (isPaused s) (position s) m (isShuffled s)
    (currentTrack s) (priorityTracks s) (nextTracks s) (previousTracks s).

Definition set_isShuffled (b : bool) (s : PlayerState) : PlayerState :=
  mkState (volume s) (isPaused s) (position s) (repeatMode s) b
    (currentTrack s) (priorityTracks s) (nextTracks s) (previousTracks s).

Definition set_currentTrack (t : option PlayerTrack) (s : PlayerState) : PlayerState :=
  mkState (volume s) (isPaused s) (position s) (repeatMode s) (isShuffled s)
    t (priorityTracks s) (nextTracks s) (previousTracks s).

Definition set_priorityTracks (l : list PlayerTrack) (s : PlayerState) : PlayerState :=
  mkState (volume s) (isPaused s) (position s) (repeatMode s) (isShuffled s)
    (currentTrack s) l (nextTracks s) (previousTracks s).

Definition set_nextTracks (l : list PlayerTrack) (s : PlayerState) : PlayerState :=
  mkState (volume s) (isPaused s) (position s) (repeatMode s) (isShuffled s)
    (currentTrack s) (priorityTracks s) l (previousTracks s).

Definition set_previousTracks (l : list PlayerTrack) (s : PlayerState) : PlayerState :=
  mkState (volume s) (isPaused s) (position s) (repeatMode s) (isShuffled s)
    (currentTrack s) (priorityTracks s) (nextTracks s) l.

(** What a command or a sink can throw. *)
Inductive Exn : Type :=
| PlayRejected (src : string)   (* the promise of [audio.play()] rejected *)
| UserError (message : string). (* thrown by a function the host supplied *)

(** What [onError] is called with: a caught exception, or the
    [{ message, event, error }] object of a sink's [onerror]. *)
Inductive PlayerError : Type :=
| Caught (ex : Exn)
| LoadError (message : string).

(** The calls the controller makes to its observers. *)
Inductive Notification : Type :=
| TrackStart (track : PlayerTrack)
| TrackEnd (track : PlayerTrack)
| StateChanged (snapshot : PlayerState)
| Error (error : PlayerError).

(** ** The audio sink: an [HTMLAudioElement] *)

(** The closures the controller installs as event callbacks. *)
Inductive Handler : Type :=
| ReportLoadError (nextTrack : PlayerTrack) (* [onerror], lines 422-432 and 520-530 *)
| BufferNextTrack                           (* [oncanplaythrough], line 435 *)
| PlayerProgress                            (* [onprogress], line 439 *)
| PlayerTrackEnd.                           (* [onended], line 443 *)

Module Audio.

Record t : Type := mk {
  volume : Q;
  src : string;
  currentTime : Q;
  loop : bool;
  paused : bool;
  preload : string;
  onerror : option Handler;
  onprogress : option Handler;
  onended : option Handler;
  oncanplaythrough : option Handler
}.

(** [new Audio()] *)
Definition new : t :=
  mk 1 "" 0 false true "" None None None None.

Definition set_volume (v : Q) (a : t) : t :=
  mk v (src a) (currentTime a) (loop a) (paused a) (preload a)
    (onerror a) (onprogress a) (onended a) (oncanplaythrough a).

Definition set_src (u : string) (a : t) : t :=
  mk (volume a) u (currentTime a) (loop a) (paused a) (preload a)
    (onerror a) (onprogress a) (onended a) (oncanplaythrough a).

Definition set_currentTime (x : Q) (a : t) : t :=
  mk (volume a) (src a) x (loop a) (paused a) (preload a)
    (onerror a) (onprogress a) (onended a) (oncanplaythrough a).

Definition set_loop (b : bool) (a : t) : t :=
  mk (volume a) (src a) (currentTime a) b (paused a) (preload a)
    (onerror a) (onprogress a) (onended a) (oncanplaythrough a).

Definition set_paused (b : bool) (a : t) : t :=
  mk (volume a) (src a) (currentTime a) (loop a) b (preload a)
    (onerror a) (onprogress a) (onended a) (oncanplaythrough a).

Definition set_preload (x : string) (a : t) : t :=
  mk (volume a) (src a) (currentTime a) (loop a) (paused a) x
    (onerror a) (onprogress a) (onended a) (oncanplaythrough a).

Definition set_onerror (h : option Handler) (a : t) : t :=
  mk (volume a) (src a) (currentTime a) (loop a) (paused a) (preload a)
    h (onprogress a) (onended a) (oncanplaythrough a).

Definition set_onprogress (h : option Handler) (a : t) : t :=
  mk (volume a) (src a) (currentTime a) (loop a) (paused a) (preload a)
    (onerror a) h (onended a) (oncanplaythrough a).

Definition set_onended (h : option Handler) (a : t) : t :=
  mk (volume a) (src a) (currentTime a) (loop a) (paused a) (preload a)
    (onerror a) (onprogress a) h (oncanplaythrough a).

Definition set_oncanplaythrough (h : option Handler) (a : t) : t :=
  mk (volume a) (src a) (currentTime a) (loop a) (paused a) (preload a)
    (onerror a) (onprogress a) (onended a) h.

(** No event callback is attached to the element. *)
Definition detached (a : t) : bool :=
  match onerror a, onprogress a, onended a, oncanplaythrough a with
  | None, None, None, None => true
  | _, _, _, _ => false
  end.

End Audio.

(** ** The [Player] instance (index.ts, lines 73-115) *)

(** The user's shuffle override, called with a copy of the shadow list and a
    snapshot of the state: it returns the new order, or throws. *)
Definition ShuffleFn : Type :=
  list PlayerTrack -> PlayerState -> Exn + list PlayerTrack.

Record PlayerParams : Type := mkParams {
  param_volume : Q;
  param_onTrackStart : bool;
  param_onTrackEnd : bool;
  param_onStateChanged : bool;
  param_onError : bool;
  param_shuffle : option ShuffleFn
}.

(** The host environment of an instance: whether the backend starts playing
    a source (the promise of [audio.play()] resolves), and the successive
    values of [Math.random()]. *)
Record Backend : Type := mkBackend {
  canPlay : string -> bool;
  random : nat -> Q
}.

Record Player : Type := mkPlayer {
  backend : Backend;
  state : PlayerState;
  onTrackStart : bool;
  onTrackEnd : bool;
  onStateChanged : bool;
  onError : bool;
  shuffle : option ShuffleFn;
  isAudio1Active : bool;
  audio1 : option Audio.t;
  audio2 : option Audio.t;
  nonShuffledNextTracks : list PlayerTrack;
  (* elements no slot refers to any more, most recently released first *)
  released : list Audio.t;
  (* the calls made to the observers, oldest first *)
  notifications : list Notification;
  (* how many times [Math.random()] has been called *)
  randomCalls : nat
}.

Definition set_state (s : PlayerState) (p : Player) : Player :=
  mkPlayer (backend p) s (onTrackStart p) (onTrackEnd p) (onStateChanged p) (onError p)
    (shuffle p) (isAudio1Active p) (audio1 p) (audio2 p)
    (nonShuffledNextTracks p) (released p) (notifications p) (randomCalls p).

Definition set_isAudio1Active (b : bool) (p : Player) : Player :=
  mkPlayer (backend p) (state p) (onTrackStart p) (onTrackEnd p) (onStateChanged p) (onError p)
    (shuffle p) b (audio1 p) (audio2 p)
    (nonShuffledNextTracks p) (released p) (notifications p) (randomCalls p).

Definition set_audio1 (a : option Audio.t) (p : Player) : Player :=
  mkPlayer (backend p) (state p) (onTrackStart p) (onTrackEnd p) (onStateChanged p) (onError p)
    (shuffle p) (isAudio1Active p) a (audio2 p)
    (nonShuffledNextTracks p) (released p) (notifications p) (randomCalls p).

Definition set_audio2 (a : option Audio.t) (p : Player) : Player :=
  mkPlayer (backend p) (state p) (onTrackStart p) (onTrackEnd p) (onStateChanged p) (onError p)
    (shuffle p) (isAudio1Active p) (audio1 p) a
    (nonShuffledNextTracks p) (released p) (notifications p) (randomCalls p).

Definition set_nonShuffledNextTracks (l : list PlayerTrack) (p : Player) : Player :=
  mkPlayer (backend p) (state p) (onTrackStart p) (onTrackEnd p) (onStateChanged p) (onError p)
    (shuffle p) (isAudio1Active p) (audio1 p) (audio2 p)
    l (released p) (notifications p) (randomCalls p).

Definition set_released (l : list Audio.t) (p : Player) : Player :=
  mkPlayer (backend p) (state p) (onTrackStart p) (onTrackEnd p) (onStateChanged p) (onError p)
    (shuffle p) (isAudio1Active p) (audio1 p) (audio2 p)
    (nonShuffledNextTracks p) l (notifications p) (randomCalls p).

Definition set_notifications (l : list Notification) (p : Player) : Player :=
  mkPlayer (backend p) (state p) (onTrackStart p) (onTrackEnd p) (onStateChanged p) (onError p)
    (shuffle p) (isAudio1Active p) (audio1 p) (audio2 p)
    (nonShuffledNextTracks p) (released p) l (randomCalls p).

Definition set_randomCalls (n : nat) (p : Player) : Player :=
  mkPlayer (backend p) (state p) (onTrackStart p) (onTrackEnd p) (onStateChanged p) (onError p)
    (shuffle p) (isAudio1Active p) (audio1 p) (audio2 p)
    (nonShuffledNextTracks p) (released p) (notifications p) n.

(** The constructor (lines 94-115). *)
Definition newPlayer (host : Backend) (params : PlayerParams) : Player :=
  mkPlayer host
    (mkState (param_volume params) true 0 noRepeat false None [] [] [])
    (param_onTrackStart params) (param_onTrackEnd params)
    (param_onStateChanged params) (param_onError params) (param_shuffle params)
    true None None [] [] [] 0.

(** ** Commands: state passing with exceptions *)

Inductive Outcome (A : Type) : Type :=
| Returned (a : A) (p : Player)
| Threw (ex : Exn) (p : Player).

Arguments Returned {A} a p.
Arguments Threw {A} ex p.

(** The instance a command leaves behind, whether it returned or threw. *)
Definition after {A : Type} (o : Outcome A) : Player :=
  match o with
  | Returned _ p => p
  | Threw _ p => p
  end.

Definition threw {A : Type} (o : Outcome A) : bool :=
  match o with
  | Returned _ _ => false
  | Threw _ _ => true
  end.

Definition M (A : Type) : Type := Player -> Outcome A.

Definition ret {A : Type} (a : A) : M A :=
  fun p => Returned a p.

Definition bind {A B : Type} (m : M A) (k : A -> M B) : M B :=
  fun p =>
    match m p with
    | Returned a p' => k a p'
    | Threw ex p' => Threw ex p'
    end.

Definition throw {A : Type} (ex : Exn) : M A :=
  fun p => Threw ex p.

(** [try { body } catch (ex) { handler(ex) }] *)
Definition try_catch {A : Type} (body : M A) (handler : Exn -> M A) : M A :=
  fun p =>
    match body p with
    | Returned a p' => Returned a p'
    | Threw ex p' => handler ex p'
    end.

Definition gets {A : Type} (f : Player -> A) : M A :=
  fun p => Returned (f p) p.

Definition modify (f : Player -> Player) : M unit :=
  fun p => Returned tt (f p).

Declare Scope cmd_scope.
Delimit Scope cmd_scope with cmd.
Notation "x <- m ;; k" := (bind m (fun x => k))
  (at level 61, m at next level, right associativity) : cmd_scope.
Notation "m ;; k" := (bind m (fun _ => k))
  (at level 61, right associativity) : cmd_scope.
Local Open Scope cmd_scope.

(** [this.state.f = v] *)
Definition assign_state (f : PlayerState -> PlayerState) : M unit :=
  modify (fun p => set_state (f (state p)) p).

(** A call to an observer that is present. *)
Definition notify (n : Notification) : M unit :=
  modify (fun p => set_notifications (notifications p ++ [n]) p).

(** *** The two slots *)

Inductive Slot : Type :=
| Slot1
| Slot2.

Definition slot_get (s : Slot) (p : Player) : option Audio.t :=
  match s with
  | Slot1 => audio1 p
  | Slot2 => audio2 p
  end.

Definition slot_put (s : Slot) (a : option Audio.t) (p : Player) : Player :=
  match s with
  | Slot1 => set_audio1 a p
  | Slot2 => set_audio2 a p
  end.

(** [get activeAudioElement] (lines 343-349), as the slot it reads. *)
Definition activeSlot (p : Player) : Slot :=
  if isAudio1Active p then Slot1 else Slot2.

Definition activeAudioElement (p : Player) : option Audio.t :=
  slot_get (activeSlot p) p.

(** An assignment to a property of the element the slot refers to. *)
Definition audio_set (s : Slot) (f : Audio.t -> Audio.t) : M unit :=
  modify (fun p =>
    match slot_get s p with
    | Some a => slot_put s (Some (f a)) p
    | None => p
    end).

(** [this.audioN = null]: the slot lets go of its element, which lives on
    as it is. *)
Definition release (s : Slot) : M unit :=
  modify (fun p =>
    match slot_get s p with
    | Some a => set_released (a :: released p) (slot_put s None p)
    | None => p
    end).

(** [this.audioN = new Audio()] *)
Definition create (s : Slot) : M unit :=
  modify (slot_put s (Some Audio.new)).

(** [audio.pause()] *)
Definition audio_pause (s : Slot) : M unit :=
  audio_set s (Audio.set_paused true).

Definition is_some {A : Type} (o : option A) : bool :=
  match o with
  | Some _ => true
  | None => false
  end.

Definition is_empty {A : Type} (l : list A) : bool :=
  match l with
  | [] => true
  | _ :: _ => false
  end.

(** [if (c) { m }] *)
Definition when (c : bool) (m : M unit) : M unit :=
  if c then m else ret tt.

(** [Array.prototype.slice(start, end)]: a negative index counts from the
    end, and both are clamped to the array. *)
Definition slice_index (len k : Z) : Z :=
  if (k <? 0)%Z then Z.max (len + k) 0 else Z.min k len.

Definition slice {A : Type} (l : list A) (start : Z) (stop : option Z) : list A :=
  let len := Z.of_nat (List.length l) in
  let from := slice_index len start in
  let to := match stop with
            | Some e => slice_index len e
            | None => len
            end in
  firstn (Z.to_nat (to - from)) (skipn (Z.to_nat from) l).

(** [a[i] = a[j]; a[j] = tempValue] with [tempValue = a[i]]; both indices are
    inside the array whenever [Math.random()] is in [0, 1). *)
Definition swap (i j : nat) (l : list PlayerTrack) : list PlayerTrack :=
  match nth_error l i, nth_error l j with
  | Some x, Some y =>
      let l1 := firstn i l ++ y :: skipn (S i) l in
      firstn j l1 ++ x :: skipn (S j) l1
  | _, _ => l
  end.

(** ** The controller (index.ts, lines 117-571) *)

(** [await audio.play()] *)
Definition audio_play (s : Slot) : M unit :=
  fun p =>
    match slot_get s p with
    | Some a =>
        if canPlay (backend p) (Audio.src a)
        then Returned tt (slot_put s (Some (Audio.set_paused false a)) p)
        else Threw (PlayRejected (Audio.src a)) p
    | None => Returned tt p
    end.

(** Lines 555-571. *)
Definition triggerOnTrackStart : M unit :=
  fun p =>
    match onTrackStart p, currentTrack (state p) with
    | true, Some track => notify (TrackStart track) p
    | _, _ => Returned tt p
    end.

Definition triggerOnTrackEnd (track : PlayerTrack) : M unit :=
  fun p => when (onTrackEnd p) (notify (TrackEnd track)) p.

Definition triggerOnStateChange : M unit :=
  fun p => when (onStateChanged p) (notify (StateChanged (state p))) p.

(** [catch (ex) { if (this.onError) { this.onError(ex); } }] *)
Definition reportError (ex : Exn) : M unit :=
  fun p => when (onError p) (notify (Error (Caught ex))) p.

(** [setVolume] (lines 117-135). *)
Definition setVolume (volumePercent : Q) : M unit :=
  try_catch
    (assign_state (set_volume volumePercent) ;;
     let volume := volumePercent / 100 in
     (fun p => when (is_some (audio1 p))
                 (audio_set Slot1 (Audio.set_volume volume)) p) ;;
     (fun p => when (is_some (audio2 p))
                 (audio_set Slot2 (Audio.set_volume volume)) p) ;;
     triggerOnStateChange)
    reportError.

(** [repeatMode !== RepeatMode.noRepeat] *)
Definition isRepeating (repeatMode : RepeatMode) : bool :=
  match repeatMode with
  | noRepeat => false
  | _ => true
  end.

(** [setRepeatMode] (lines 137-152). *)
Definition setRepeatMode (repeatMode : RepeatMode) : M unit :=
  try_catch
    (assign_state (set_repeatMode repeatMode) ;;
     (fun p =>
        let audio := activeSlot p in
        when (is_some (slot_get audio p))
          (audio_set audio (Audio.set_loop (isRepeating repeatMode))) p) ;;
     triggerOnStateChange)
    reportError.

(** [defaultShuffle] (lines 538-553): the loop, from [currentIndex] down. *)
Fixpoint shuffleLoop (random : nat -> Q) (currentIndex : nat)
    (shuffledTrackList : list PlayerTrack) (calls : nat)
    : list PlayerTrack * nat :=
  match currentIndex with
  | O => (shuffledTrackList, calls)
  | S currentIndex' =>
      let randomIndex :=
        Z.to_nat (Qfloor (random calls * inject_Z (Z.of_nat currentIndex))) in
      shuffleLoop random currentIndex'
        (swap currentIndex' randomIndex shuffledTrackList) (S calls)
  end.

Definition defaultShuffle (nonShuffledNextTracks : list PlayerTrack)
    : M (list PlayerTrack) :=
  fun p =>
    let '(shuffledTrackList, calls) :=
      shuffleLoop (random (backend p)) (List.length nonShuffledNextTracks)
        nonShuffledNextTracks (randomCalls p) in
    Returned shuffledTrackList (set_randomCalls calls p).

(** The call [this.shuffle(tracks.slice(), { ...this.state })]. *)
Definition userShuffle (f : ShuffleFn) (tracks : list PlayerTrack)
    : M (list PlayerTrack) :=
  fun p =>
    match f tracks (state p) with
    | inr shuffled => Returned shuffled p
    | inl ex => Threw ex p
    end.

(** The right-hand side of the assignment in [enableShuffle]: the order
    the shuffle strategy of the instance gives to [tracks]. *)
Definition shuffled (tracks : list PlayerTrack) : M (list PlayerTrack) :=
  fun p =>
    match shuffle p with
    | Some f => userShuffle f tracks p
    | None => defaultShuffle tracks p
    end.

(** [enableShuffle] (lines 154-163). *)
Definition enableShuffle : M unit :=
  assign_state (set_isShuffled true) ;;
  original <- gets nonShuffledNextTracks ;;
  next <- shuffled original ;;
  assign_state (set_nextTracks next) ;;
  triggerOnStateChange.

(** [disableShuffle] (lines 165-170). *)
Definition disableShuffle : M unit :=
  assign_state (set_isShuffled false) ;;
  original <- gets nonShuffledNextTracks ;;
  assign_state (set_nextTracks original) ;;
  triggerOnStateChange.

(** [pause] (lines 172-188). *)
Definition pause : M unit :=
  try_catch
    ((fun p =>
        let audio := activeSlot p in
        when (is_some (slot_get audio p)) (audio_pause audio) p) ;;
     (fun p =>
        when (negb (isPaused (state p)))
          (assign_state (set_isPaused true) ;; triggerOnStateChange) p))
    reportError.

(** [play] (lines 190-206), given the [playNextTrack] it calls. *)
Definition play_with (playNextTrack : option PlayerTrack -> M unit) : M unit :=
  try_catch
    (fun p =>
       let audio := activeSlot p in
       match slot_get audio p with
       | Some _ =>
           (audio_play audio ;;
            assign_state (set_isPaused false) ;;
            triggerOnStateChange) p
       | None => playNextTrack (currentTrack (state p)) p
       end)
    reportError.

(** [this.state.currentTrack.id !== nextTrack.id], with [!nextTrack] first
    (line 395). *)
Definition differs (current : PlayerTrack) (nextTrack : option PlayerTrack) : bool :=
  match nextTrack with
  | None => true
  | Some next => negb (String.eqb (id current) (id next))
  end.

(** The pop at the head of [playNextTrack] (lines 383-393). *)
Definition popNext : M (option PlayerTrack) :=
  fun p =>
    match priorityTracks (state p) with
    | track :: rest =>
        Returned (Some track) (set_state (set_priorityTracks rest (state p)) p)
    | [] =>
        match nextTracks (state p) with
        | track :: rest =>
            let p := set_state (set_nextTracks rest (state p)) p in
            Returned (Some track)
              (if isShuffled (state p) then p
               else set_nonShuffledNextTracks (nextTracks (state p)) p)
        | [] => Returned None p
        end
    end.

(** The five statements that destroy the element of a slot (lines 454-458,
    460-464, 490-494 and 505-509): its callbacks are cleared, then the slot
    is set to [null]. *)
Definition destroy (s : Slot) : M unit :=
  audio_set s (Audio.set_onerror None) ;;
  audio_set s (Audio.set_onprogress None) ;;
  audio_set s (Audio.set_onended None) ;;
  audio_set s (Audio.set_oncanplaythrough None) ;;
  release s.

(** [buffer.onerror], read through the slot. *)
Definition onerror_of (s : Slot) (p : Player) : option Handler :=
  match slot_get s p with
  | Some a => Audio.onerror a
  | None => None
  end.

(** Lines 395-399 of [playNextTrack]: the current track goes to the front
    of the history, unless it is [nextTrack]. *)
Definition retireCurrent (nextTrack : option PlayerTrack) : M unit :=
  fun p =>
    match currentTrack (state p) with
    | Some current =>
        when (differs current nextTrack)
          (assign_state (set_previousTracks (current :: previousTracks (state p))) ;;
           triggerOnTrackEnd current) p
    | None => Returned tt p
    end.

(** Lines 402-466 of [playNextTrack]: the slots swap roles and the now
    active element is set up for [nextTrack]. *)
Definition activate (nextTrack : PlayerTrack)
    (manualNextTrack : option PlayerTrack) : M unit :=
  assign_state (set_currentTrack (Some nextTrack)) ;;
  modify (fun p => set_isAudio1Active (negb (isAudio1Active p)) p) ;;
  (* Create the audio element if it was not previously buffered *)
  audio <- gets activeSlot ;;
  (fun p => when (negb (is_some (slot_get audio p))) (create audio) p) ;;
  (fun p =>
     when (onError p && negb (is_some (onerror_of audio p)))
       (audio_set audio (Audio.set_onerror (Some (ReportLoadError nextTrack)))) p) ;;
  audio_set audio (Audio.set_oncanplaythrough (Some BufferNextTrack)) ;;
  audio_set audio (Audio.set_onprogress (Some PlayerProgress)) ;;
  audio_set audio (Audio.set_onended (Some PlayerTrackEnd)) ;;
  volume <- gets (fun p => volume (state p)) ;;
  audio_set audio (Audio.set_volume volume) ;;
  audio_set audio (Audio.set_src (url nextTrack)) ;;
  audio_set audio (Audio.set_currentTime 0) ;;
  (* Destroy the previous track audio element *)
  when (negb (is_some manualNextTrack))
    (fun p =>
       if isAudio1Active p && is_some (audio2 p) then destroy Slot2 p
       else if negb (isAudio1Active p) && is_some (audio1 p) then destroy Slot1 p
       else Returned tt p).

(** [playNextTrack] (lines 380-475), given the [play] it awaits. *)
Definition playNextTrack_with (play : M unit)
    (manualNextTrack : option PlayerTrack) : M unit :=
  nextTrack <- match manualNextTrack with
               | Some track => ret (Some track)
               | None => popNext
               end ;;
  retireCurrent nextTrack ;;
  match nextTrack with
  | Some nextTrack =>
      activate nextTrack manualNextTrack ;;
      triggerOnTrackStart ;;
      play
  | None =>
      fun p =>
        when (is_some (currentTrack (state p)))
          (assign_state (set_currentTrack None) ;; triggerOnStateChange) p
  end.

(** [play] and [playNextTrack] call each other.  The [play] that
    [playNextTrack] awaits runs with the active slot filled, so it never
    reaches its own call of [playNextTrack]; the recursion is unrolled at
    that point ([playNextTrack_unfold] below proves the equation of the
    source). *)
Definition play_active : M unit :=
  play_with (fun _ => ret tt).

Definition playNextTrack (manualNextTrack : option PlayerTrack) : M unit :=
  playNextTrack_with play_active manualNextTrack.

Definition play : M unit :=
  play_with playNextTrack.

(** [togglePlay] (lines 208-214). *)
Definition togglePlay : M unit :=
  fun p => if isPaused (state p) then play p else pause p.

(** [seek] (lines 216-229). *)
Definition seek (position : Q) : M unit :=
  try_catch
    (fun p =>
       let audio := activeSlot p in
       when (is_some (slot_get audio p))
         (audio_set audio
            (Audio.set_currentTime (if Qle_bool 0 position then position else 0)) ;;
          triggerOnStateChange) p)
    reportError.

(** [previousTrack] (lines 231-273).  The first part answers whether the
    method has returned (line 247). *)
Definition previousTrack : M unit :=
  try_catch
    (returned <-
       (fun p =>
          let audio := activeSlot p in
          match slot_get audio p with
          | Some _ =>
              (audio_pause audio ;;
               (* If the current song has played for more than 3 seconds, rewind it to the beginning *)
               (* If there are no previously played tracks, rewind the current track *)
               fun p =>
                 let currentTime := match slot_get audio p with
                                    | Some a => Audio.currentTime a
                                    | None => 0
                                    end in
                 if Qle_bool 3 currentTime || is_empty (previousTracks (state p))
                 then
                   (audio_set audio (Audio.set_currentTime 0) ;;
                    (fun p => when (is_some (currentTrack (state p)))
                                triggerOnTrackStart p) ;;
                    play ;;
                    ret true) p
                 else
                   (* Remove event hook since the active audio element will become a buffer *)
                   (audio_set audio (Audio.set_oncanplaythrough None) ;;
                    audio_set audio (Audio.set_currentTime 0) ;;
                    ret false) p) p
          | None => Returned false p
          end) ;;
     if (returned : bool) then ret tt
     else
       fun p =>
         match previousTracks (state p) with
         | lastPlayed :: rest =>
             (* If a song was playing, prepend it back to to nextTracks *)
             ((fun p =>
                 match currentTrack (state p) with
                 | Some current =>
                     (assign_state (set_nextTracks (current :: nextTracks (state p))) ;;
                      triggerOnTrackEnd current) p
                 | None => Returned tt p
                 end) ;;
              (* Pop last played track and make it the current track *)
              assign_state (fun s => set_currentTrack (Some lastPlayed)
                                       (set_previousTracks rest s)) ;;
              playNextTrack (Some lastPlayed)) p
         | [] => Returned tt p
         end)
    reportError.

(** [nextTrack] (lines 275-289). *)
Definition nextTrack : M unit :=
  try_catch
    ((fun p =>
        let audio := activeSlot p in
        when (is_some (slot_get audio p))
          (audio_pause audio ;; assign_state (set_isPaused true)) p) ;;
     playNextTrack None)
    reportError.

(** [bufferNextTrack] (lines 477-536). *)
Definition bufferNextTrack : M unit :=
  fun p =>
    let nextTrack :=
      match priorityTracks (state p) with
      | track :: _ => Some track
      | [] => match nextTracks (state p) with
              | track :: _ => Some track
              | [] => None
              end
      end in
    match nextTrack with
    | Some nextTrack =>
        (* [this.audioN && this.audioN.src !== nextTrack.url] *)
        let stale (a : option Audio.t) : bool :=
          match a with
          | Some a => negb (String.eqb (Audio.src a) (url nextTrack))
          | None => false
          end in
        (buffer <-
           (fun p =>
              if isAudio1Active p then
                (* Destroy previous buffer if it's not buffering the correct track *)
                ((fun p => when (stale (audio2 p)) (destroy Slot2) p) ;;
                 (fun p => when (negb (is_some (audio2 p))) (create Slot2) p) ;;
                 ret Slot2) p
              else
                ((fun p => when (stale (audio1 p)) (destroy Slot1) p) ;;
                 (fun p => when (negb (is_some (audio1 p))) (create Slot1) p) ;;
                 ret Slot1) p) ;;
         (fun p =>
            when (onError p && negb (is_some (onerror_of buffer p)))
              (audio_set buffer (Audio.set_onerror (Some (ReportLoadError nextTrack)))) p) ;;
         audio_set buffer (Audio.set_preload "auto") ;;
         audio_set buffer (Audio.set_src (url nextTrack))) p
    | None => Returned tt p
    end.

(** [queuePriorityTracks] (lines 291-303). *)
Definition queuePriorityTracks (tracks : list PlayerTrack) : M unit :=
  hadPriorityTracks <- gets (fun p => negb (is_empty (priorityTracks (state p)))) ;;
  (fun p => assign_state (set_priorityTracks (priorityTracks (state p) ++ tracks)) p) ;;
  (* If there were no previous priority tracks, replace buffer with first priority track *)
  when (negb hadPriorityTracks)
    (fun p =>
       when ((isAudio1Active p && is_some (audio2 p)) ||
             (negb (isAudio1Active p) && is_some (audio1 p)))
         bufferNextTrack p) ;;
  triggerOnStateChange.

(** [removePriorityTrack] (lines 305-308). *)
Definition removePriorityTrack (id' : string) : M unit :=
  (fun p =>
     assign_state
       (set_priorityTracks
          (filter (fun track => negb (String.eqb (id track) id'))
             (priorityTracks (state p)))) p) ;;
  triggerOnStateChange.

(** [clearPriorityTracks] (lines 310-313). *)
Definition clearPriorityTracks : M unit :=
  assign_state (set_priorityTracks []) ;;
  triggerOnStateChange.

(** Lines 322-338 of [playTracks]: both slots are let go of and the lists
    are set from [tracks]. *)
Definition setTracks (tracks : list PlayerTrack) (playIndex : Z) : M unit :=
  (fun p =>
     let audio := activeSlot p in
     when (is_some (slot_get audio p)) (audio_pause audio) p) ;;
  release Slot1 ;;
  release Slot2 ;;
  modify (set_isAudio1Active true) ;;
  assign_state (set_priorityTracks []) ;;
  (if (0 <? playIndex)%Z && (playIndex <? Z.of_nat (List.length tracks))%Z
   then assign_state (set_previousTracks (slice tracks 0 (Some (playIndex - 1)%Z)))
   else assign_state (set_previousTracks [])) ;;
  assign_state (set_nextTracks (slice tracks playIndex None)).

(** [playTracks] (lines 321-341); [playIndex] is given explicitly, 0 being
    its default. *)
Definition playTracks (tracks : list PlayerTrack) (playIndex : Z) : M unit :=
  setTracks tracks playIndex ;;
  play.

(** [onPlayerProgress] (lines 351-360). *)
Definition onPlayerProgress : M unit :=
  (fun p =>
     match activeAudioElement p with
     | Some audio => assign_state (set_position (Audio.currentTime audio)) p
     | None => assign_state (set_position 0) p
     end) ;;
  triggerOnStateChange.

(** [onPlayerTrackEnd] (lines 362-378). *)
Definition onPlayerTrackEnd : M unit :=
  fun p =>
    match repeatMode (state p) with
    | repeatOnce => setRepeatMode noRepeat p
    | noRepeat => try_catch (playNextTrack None) reportError p
    | repeatFull => Returned tt p
    end.

(** *** Events of the backend *)

Inductive SinkEvent : Type :=
| canplaythrough
| progress
| ended
| error.

Definition callback (ev : SinkEvent) (a : Audio.t) : option Handler :=
  match ev with
  | canplaythrough => Audio.oncanplaythrough a
  | progress => Audio.onprogress a
  | ended => Audio.onended a
  | error => Audio.onerror a
  end.

(** The bodies of the installed closures. *)
Definition run_handler (h : Handler) : M unit :=
  match h with
  | BufferNextTrack => bufferNextTrack
  | PlayerProgress => onPlayerProgress
  | PlayerTrackEnd => onPlayerTrackEnd
  | ReportLoadError nextTrack =>
      fun p =>
        when (onError p)
          (notify (Error (LoadError ("Error loading audio: " ++ url nextTrack)%string))) p
  end.

(** The element in slot [s] fires [ev]: its callback runs, if it has one. *)
Definition fire (s : Slot) (ev : SinkEvent) : M unit :=
  fun p =>
    match slot_get s p with
    | Some a =>
        match callback ev a with
        | Some h => run_handler h p
        | None => Returned tt p
        end
    | None => Returned tt p
    end.

(** The backend has played the element in slot [s] up to [time]. *)
Definition elapse (s : Slot) (time : Q) : M unit :=
  audio_set s (Audio.set_currentTime time).




(** Every element that no slot refers to has had its callbacks cleared. *)
Definition releasedDetached (p : Player) : bool :=
  forallb Audio.detached (released p).

(** ** Views and predicates used in the statements *)

(** The instance after a command has left every value of [f] as it was. *)
Definition preserves {A X : Type} (f : Player -> X) (m : M A) : Prop :=
  forall p, f (after (m p)) = f p.

(** No exception leaves the command, whatever the instance. *)
Definition never_throws {A : Type} (m : M A) : Prop :=
  forall p, threw (m p) = false.

(** The current track and the three track lists. *)
Definition queues (p : Player)
    : option PlayerTrack * list PlayerTrack * list PlayerTrack * list PlayerTrack :=
  (currentTrack (state p), priorityTracks (state p), nextTracks (state p),
   previousTracks (state p)).

(** The pop of [playNextTrack], as a function of its argument and of the
    two lists it reads: the track obtained and what is left of the lists. *)
Definition popped (manualNextTrack : option PlayerTrack)
    (priority next : list PlayerTrack)
    : option PlayerTrack * list PlayerTrack * list PlayerTrack :=
  match manualNextTrack with
  | Some track => (Some track, priority, next)
  | None =>
      match priority with
      | track :: rest => (Some track, rest, next)
      | [] =>
          match next with
          | track :: rest => (Some track, [], rest)
          | [] => (None, [], [])
          end
      end
  end.

(** What is about to sound: the current track, then [nextTracks]. *)
Definition upcoming (p : Player) : list PlayerTrack :=
  match currentTrack (state p) with
  | Some track => track :: nextTracks (state p)
  | None => nextTracks (state p)
  end.

(** Which slot is active, and where its element stands. *)
Definition activeSink (p : Player) : Slot * option (string * Q) :=
  (activeSlot p,
   match activeAudioElement p with
   | Some a => Some (Audio.src a, Audio.currentTime a)
   | None => None
   end).

(** ** Tracks, hosts and instances used in the examples *)

Definition trackA : PlayerTrack := mkTrack "a" "a.mp3".
Definition trackB : PlayerTrack := mkTrack "b" "b.mp3".
Definition trackC : PlayerTrack := mkTrack "c" "c.mp3".
Definition trackZ : PlayerTrack := mkTrack "z" "z.mp3".

(** A backend that always starts playing; [Math.random()] always gives 0. *)
Definition reliable : Backend :=
  mkBackend (fun _ => true) (fun _ => 0).

(** [new Player({ volume })] *)
Definition unobserved (volume : Q) : PlayerParams :=
  mkParams volume false false false false None.

(** An instance with all four observers. *)
Definition observed : PlayerParams :=
  mkParams 50 true true true true None.

(** A shuffle override that throws. *)
Definition failingShuffle : ShuffleFn :=
  fun _ _ => inl (UserError "shuffle failed").

(** An instance with all four observers and that override. *)
Definition observedFailingShuffle : PlayerParams :=
  mkParams 50 true true true true (Some failingShuffle).

(** [playTracks([A, B, C])] on a new instance: A sounds in slot 2. *)
Definition playingA : Player :=
  after (playTracks [trackA; trackB; trackC] 0 (newPlayer reliable (unobserved 50))).

(** Then A ends: B sounds, A is history. *)
Definition playingB : Player :=
  after (fire Slot2 ended playingA).

(** [playTracks([Z])] on a new instance. *)
Definition playingZ : Player :=
  after (playTracks [trackZ] 0 (newPlayer reliable (unobserved 50))).

(** A backend whose [audio.play()] always rejects. *)
Definition unreliable : Backend :=
  mkBackend (fun _ => false) (fun _ => 0).

(** [playTracks([A])] on an instance with all four observers. *)
Definition observedPlayingA : Player :=
  after (playTracks [trackA] 0 (newPlayer reliable observed)).

(** The element that sounds in [playingA], and the one in [playingB]. *)
Definition sinkOfA : Audio.t :=
  Audio.mk 50 "a.mp3" 0 false false "" None
    (Some PlayerProgress) (Some PlayerTrackEnd) (Some BufferNextTrack).

Definition sinkOfB : Audio.t :=
  Audio.mk 50 "b.mp3" 0 false false "" None
    (Some PlayerProgress) (Some PlayerTrackEnd) (Some BufferNextTrack).

(** [playingB] once the backend has played 5 seconds of B. *)
Definition playingB5 : Player :=
  after (elapse Slot1 5 playingB).

(** [playingA] once B is buffered in the standby slot and the volume has
    been set to 50 percent. *)
Definition bufferedB : Player :=
  after (setVolume 50 (after (fire Slot2 canplaythrough playingA))).


(** The command keeps the instance inside [I]. *)
Definition maintains {A : Type} (I : Player -> bool) (m : M A) : Prop :=
  forall p, I p = true -> I (after (m p)) = true.

(** ** Further views *)

(** [a[i] = y], inside the array. *)
Definition assignAt (i : nat) (y : PlayerTrack) (l : list PlayerTrack)
    : list PlayerTrack :=
  firstn i l ++ y :: skipn (S i) l.

(** The slot that is not the active one, and its element. *)
Definition standbySlot (p : Player) : Slot :=
  if isAudio1Active p then Slot2 else Slot1.

Definition standbyAudioElement (p : Player) : option Audio.t :=
  slot_get (standbySlot p) p.

(** Every track the instance holds: the current one and the three lists. *)
Definition allTracks (p : Player) : list PlayerTrack :=
  match currentTrack (state p) with
  | Some track => [track]
  | None => []
  end
  ++ priorityTracks (state p) ++ nextTracks (state p) ++ previousTracks (state p).




(** The stages of [previousTrack]: line 242-244, lines 257-261, and lines
    255-267. *)
Definition announceRestart : M unit :=
  fun p => when (is_some (currentTrack (state p))) triggerOnTrackStart p.

Definition requeueCurrent : M unit :=
  fun p =>
    match currentTrack (state p) with
    | Some current =>
        (assign_state (set_nextTracks (current :: nextTracks (state p))) ;;
         triggerOnTrackEnd current) p
    | None => Returned tt p
    end.

Definition goBack : M unit :=
  fun p =>
    match previousTracks (state p) with
    | lastPlayed :: rest =>
        (requeueCurrent ;;
         assign_state (fun s => set_currentTrack (Some lastPlayed)
                                  (set_previousTracks rest s)) ;;
         playNextTrack (Some lastPlayed)) p
    | [] => Returned tt p
    end.

(** The test of line 239, on the active element. *)
Definition restarts (p : Player) : bool :=
  match activeAudioElement p with
  | Some a => Qle_bool 3 (Audio.currentTime a) || is_empty (previousTracks (state p))
  | None => false
  end.

(** [previousTrack] by stages: rewind and play again, or go back. *)
Definition previousTrack_staged : M unit :=
  fun p =>
    let audio := activeSlot p in
    match slot_get audio p with
    | Some _ =>
        if restarts p
        then (audio_pause audio ;;
              audio_set audio (Audio.set_currentTime 0) ;;
              announceRestart ;;
              play_active) p
        else (audio_pause audio ;;
              audio_set audio (Audio.set_oncanplaythrough None) ;;
              audio_set audio (Audio.set_currentTime 0) ;;
              goBack) p
    | None => goBack p
    end.

(** The two slots as they are, and the volume of the state. *)
Definition sinks (p : Player) : bool * option Audio.t * option Audio.t * Q :=
  (isAudio1Active p, audio1 p, audio2 p, volume (state p)).



(** The track [bufferNextTrack] looks at: the head of [priorityTracks], else
    the head of [nextTracks]. *)
Definition headOfQueue (p : Player) : option PlayerTrack :=
  match priorityTracks (state p) with
  | track :: _ => Some track
  | [] =>
      match nextTracks (state p) with
      | track :: _ => Some track
      | [] => None
      end
  end.

(** The active flag and the active element. *)
Definition activeElement (p : Player) : bool * option Audio.t :=
  (isAudio1Active p, activeAudioElement p).

(** Everything shuffling has no business with: the current track, the
    priority list, the history and the two slots. *)
Definition besideNextTracks (p : Player) :=
  (currentTrack (state p), priorityTracks (state p), previousTracks (state p),
   sinks p).

(** Everything an edit of the priority list has no business with. *)
Definition besidePriorityTracks (p : Player) :=
  (currentTrack (state p), nextTracks (state p), previousTracks (state p),
   nonShuffledNextTracks p, isAudio1Active p, activeAudioElement p).



(** ** Reasoning about commands *)

Lemma preserves_ret {A X} (f : Player -> X) (a : A) : preserves f (ret a).
Proof. intro p. reflexivity. Qed.

Lemma preserves_bind {A B X} (f : Player -> X) (m : M A) (k : A -> M B) :
  preserves f m -> (forall a, preserves f (k a)) -> preserves f (bind m k).
Proof.
  intros Hm Hk p. unfold bind. specialize (Hm p).
  destruct (m p) as [a p'|ex p']; simpl in *.
  - rewrite Hk. exact Hm.
  - exact Hm.
Qed.

Lemma preserves_try_catch {A X} (f : Player -> X) (m : M A) (h : Exn -> M A) :
  preserves f m -> (forall ex, preserves f (h ex)) -> preserves f (try_catch m h).
Proof.
  intros Hm Hh p. unfold try_catch. specialize (Hm p).
  destruct (m p) as [a p'|ex p']; simpl in *.
  - exact Hm.
  - rewrite Hh. exact Hm.
Qed.

Lemma preserves_when {X} (f : Player -> X) (c : bool) (m : M unit) :
  preserves f m -> preserves f (when c m).
Proof. intros Hm. destruct c; [exact Hm | apply preserves_ret]. Qed.

Lemma preserves_modify {X} (f : Player -> X) (g : Player -> Player) :
  (forall p, f (g p) = f p) -> preserves f (modify g).
Proof. intros Hg p. apply Hg. Qed.

Lemma preserves_gets {A X} (f : Player -> X) (g : Player -> A) :
  preserves f (gets g).
Proof. intro p. reflexivity. Qed.

Lemma never_throws_ret {A} (a : A) : never_throws (ret a).
Proof. intro p. reflexivity. Qed.

Lemma never_throws_bind {A B} (m : M A) (k : A -> M B) :
  never_throws m -> (forall a, never_throws (k a)) -> never_throws (bind m k).
Proof.
  intros Hm Hk p. unfold bind. specialize (Hm p).
  destruct (m p) as [a p'|ex p']; simpl in *.
  - apply Hk.
  - exact Hm.
Qed.

Lemma never_throws_try_catch {A} (m : M A) (h : Exn -> M A) :
  (forall ex, never_throws (h ex)) -> never_throws (try_catch m h).
Proof.
  intros Hh p. unfold try_catch.
  destruct (m p) as [a p'|ex p']; simpl.
  - reflexivity.
  - apply Hh.
Qed.

Lemma never_throws_when (c : bool) (m : M unit) :
  never_throws m -> never_throws (when c m).
Proof. intros Hm. destruct c; [exact Hm | apply never_throws_ret]. Qed.

Lemma never_throws_modify (g : Player -> Player) : never_throws (modify g).
Proof. intro p. reflexivity. Qed.

Lemma never_throws_gets {A} (g : Player -> A) : never_throws (gets g).
Proof. intro p. reflexivity. Qed.

(** A command of type [M unit] that does not throw is its effect on the
    instance. *)
Lemma returned_after (m : M unit) (p : Player) :
  threw (m p) = false -> m p = Returned tt (after (m p)).
Proof. destruct (m p) as [[] p'|ex p']; simpl; [reflexivity | discriminate]. Qed.

Lemma bind_unit {B} (m : M unit) (k : unit -> M B) (p : Player) :
  threw (m p) = false -> bind m k p = k tt (after (m p)).
Proof. intro H. unfold bind. rewrite (returned_after m p H). reflexivity. Qed.

Lemma try_catch_returned {A} (m : M A) (h : Exn -> M A) (p : Player) :
  threw (m p) = false -> try_catch m h p = m p.
Proof. unfold try_catch. destruct (m p); simpl; [reflexivity | discriminate]. Qed.

Ltac head_of t :=
  lazymatch t with
  | ?f _ => head_of f
  | _ => t
  end.

(** Forget every hypothesis but the facts about commands. *)
Ltac tidy :=
  repeat match goal with
         | H : ?T |- _ =>
             lazymatch T with
             | context [@preserves] => fail
             | context [@never_throws] => fail
             | context [@maintains] => fail
             | _ => clear H
             end
         end.

(** Case analysis on what the normal form of the goal is stuck on. *)
Ltac split_vars :=
  repeat match goal with
         | |- context [match ?x with _ => _ end] =>
             lazymatch x with
             | context [match _ with _ => _ end] => fail
             | _ => idtac
             end;
             destruct x eqn:?; cbv
         end.

Ltac frame_modify :=
  let p := fresh "p" in
  tidy; intro p; destruct p; cbv; split_vars; reflexivity.

Ltac frame_value :=
  cbv [after]; try reflexivity;
  lazymatch goal with
  | |- _ = ?f ?q =>
      repeat match goal with
             | H : _ = _ |- _ => revert H
             end;
      destruct q; cbv; split_vars; intros; subst;
      try discriminate; try reflexivity; congruence
  end.

(** [frame] proves [preserves f m] along the structure of [m]. *)
Ltac frame_rec :=
  lazymatch goal with
  | |- preserves _ (bind _ _) =>
      apply preserves_bind; [ frame_rec | intro; cbv beta; frame_rec ]
  | |- preserves _ (try_catch _ _) =>
      apply preserves_try_catch; [ frame_rec | intro; cbv beta; frame_rec ]
  | |- preserves _ (ret _) => apply preserves_ret
  | |- preserves _ (gets _) => apply preserves_gets
  | |- preserves _ (when _ _) => apply preserves_when; frame_rec
  | |- preserves _ (modify _) => apply preserves_modify; frame_modify
  | |- preserves _ (if ?c then _ else _) => destruct c; frame_rec
  | |- preserves _ (match ?x with _ => _ end) => destruct x; frame_rec
  | |- preserves _ (fun _ => _) => intro; cbv beta zeta; frame_at
  | |- preserves _ ?m =>
      first [ assumption
            | let h := head_of m in unfold h; frame_rec ]
  end
with frame_at :=
  lazymatch goal with
  | |- _ (after (Returned _ _)) = _ => frame_value
  | |- _ (after (Threw _ _)) = _ => frame_value
  | |- _ (after (match ?x with _ => _ end)) = _ => destruct x eqn:?; frame_at
  | |- ?f (after (?m ?q)) = ?f ?q =>
      let H := fresh in
      assert (H : preserves f m) by (tidy; frame_rec); apply H
  end.

Ltac frame := tidy; frame_rec.

(** [no_throw] proves [never_throws m] along the structure of [m]. *)
Ltac no_throw :=
  lazymatch goal with
  | |- never_throws (bind _ _) =>
      apply never_throws_bind; [ no_throw | intro; cbv beta; no_throw ]
  | |- never_throws (try_catch _ _) =>
      apply never_throws_try_catch; intro; cbv beta; no_throw
  | |- never_throws (ret _) => apply never_throws_ret
  | |- never_throws (gets _) => apply never_throws_gets
  | |- never_throws (when _ _) => apply never_throws_when; no_throw
  | |- never_throws (modify _) => apply never_throws_modify
  | |- never_throws (if ?c then _ else _) => destruct c; no_throw
  | |- never_throws (match ?x with _ => _ end) => destruct x; no_throw
  | |- never_throws (fun _ => _) => intro; cbv beta zeta; no_throw_at
  | |- never_throws ?m =>
      first [ assumption
            | let h := head_of m in unfold h; no_throw ]
  end
with no_throw_at :=
  lazymatch goal with
  | |- threw (Returned _ _) = false => reflexivity
  | |- threw (match ?x with _ => _ end) = false => destruct x; no_throw_at
  | |- threw (?m ?q) = false =>
      let H := fresh in assert (H : never_throws m) by no_throw; apply H
  end.

(** *** Which commands throw *)

Lemma play_with_never_throws (k : option PlayerTrack -> M unit) :
  never_throws (play_with k).
Proof. unfold play_with. no_throw. Qed.

Lemma play_never_throws : never_throws play.
Proof. apply play_with_never_throws. Qed.

Lemma play_active_never_throws : never_throws play_active.
Proof. apply play_with_never_throws. Qed.

Lemma triggerOnTrackStart_never_throws : never_throws triggerOnTrackStart.
Proof. no_throw. Qed.

Lemma triggerOnTrackEnd_never_throws t : never_throws (triggerOnTrackEnd t).
Proof. no_throw. Qed.

Lemma triggerOnStateChange_never_throws : never_throws triggerOnStateChange.
Proof. no_throw. Qed.

Lemma retireCurrent_never_throws nt : never_throws (retireCurrent nt).
Proof. no_throw. Qed.

Lemma activate_never_throws t m : never_throws (activate t m).
Proof. no_throw. Qed.

Lemma popNext_never_throws : never_throws popNext.
Proof. no_throw. Qed.

Lemma playNextTrack_never_throws m : never_throws (playNextTrack m).
Proof.
  pose proof play_active_never_throws.
  unfold playNextTrack, playNextTrack_with. no_throw.
Qed.





Lemma setRepeatMode_never_throws mode : never_throws (setRepeatMode mode).
Proof. unfold setRepeatMode. no_throw. Qed.


(** *** [play] and [playNextTrack] *)

Lemma play_active_queues : preserves queues play_active.
Proof. unfold play_active, play_with. frame. Qed.

Lemma play_active_activeSink : preserves activeSink play_active.
Proof. unfold play_active, play_with. frame. Qed.

Lemma play_when_active (p : Player) :
  activeAudioElement p <> None -> play p = play_active p.
Proof.
  unfold play, play_active, play_with, try_catch, activeAudioElement.
  destruct (slot_get (activeSlot p) p); [reflexivity | congruence].
Qed.

Lemma play_when_idle (p : Player) :
  activeAudioElement p = None ->
  play p = playNextTrack (currentTrack (state p)) p.
Proof.
  intro H. unfold play, play_with.
  rewrite try_catch_returned; unfold activeAudioElement in H; rewrite H.
  - reflexivity.
  - apply playNextTrack_never_throws.
Qed.

Lemma bind_cong {A B} (m : M A) (k1 k2 : A -> M B) (p : Player) :
  (forall a p', m p = Returned a p' -> k1 a p' = k2 a p') ->
  bind m k1 p = bind m k2 p.
Proof.
  intro H. unfold bind. destruct (m p) as [a p'|ex p']; [|reflexivity].
  apply H. reflexivity.
Qed.

Lemma after_returned {A} (m : M A) (p p' : Player) (a : A) :
  m p = Returned a p' -> after (m p) = p'.
Proof. intro H. rewrite H. reflexivity. Qed.

Lemma triggerOnTrackStart_state : preserves state triggerOnTrackStart.
Proof. frame. Qed.

Lemma triggerOnTrackStart_active : preserves activeAudioElement triggerOnTrackStart.
Proof. frame. Qed.

Lemma triggerOnTrackStart_activeSink : preserves activeSink triggerOnTrackStart.
Proof. frame. Qed.

Lemma triggerOnTrackEnd_state t : preserves state (triggerOnTrackEnd t).
Proof. frame. Qed.

Lemma triggerOnStateChange_state : preserves state triggerOnStateChange.
Proof. frame. Qed.

(** [activate] changes [currentTrack] and nothing else of the state. *)
Lemma activate_state (t : PlayerTrack) (m : option PlayerTrack) (p : Player) :
  state (after (activate t m p)) = set_currentTrack (Some t) (state p).
Proof.
  unfold activate.
  rewrite bind_unit by reflexivity. cbv beta.
  match goal with
  | |- state (after (?c ?q)) = _ =>
      assert (H : preserves state c) by frame; rewrite H
  end.
  reflexivity.
Qed.

(** After [activate] the active slot holds an element. *)
Lemma activate_active (t : PlayerTrack) (m : option PlayerTrack) (p : Player) :
  activeAudioElement (after (activate t m p)) <> None.
Proof.
  destruct p as [host st ots ote osc oe sh act a1 a2 shadow rel log calls].
  destruct act, a1 as [[? ? ? ? ? ? [h1|] ? ? ?]|], a2 as [[? ? ? ? ? ? [h2|] ? ? ?]|],
    oe, m; cbv; discriminate.
Qed.

(** The equation of the source: the [play] awaited by [playNextTrack] is
    [play] itself. *)
Lemma playNextTrack_unfold (manualNextTrack : option PlayerTrack) (p : Player) :
  playNextTrack manualNextTrack p = playNextTrack_with play manualNextTrack p.
Proof.
  unfold playNextTrack, playNextTrack_with.
  apply bind_cong; intros nextTrack p1 _.
  apply bind_cong; intros [] p2 _.
  destruct nextTrack as [nextTrack|]; [|reflexivity].
  apply bind_cong; intros [] p3 H3.
  apply bind_cong; intros [] p4 H4.
  symmetry. apply play_when_active.
  apply after_returned in H3, H4. subst p3 p4.
  rewrite triggerOnTrackStart_active. apply activate_active.
Qed.

Lemma retireCurrent_state (nextTrack : option PlayerTrack) (p : Player) :
  state (after (retireCurrent nextTrack p)) =
  match currentTrack (state p) with
  | Some current =>
      if differs current nextTrack
      then set_previousTracks (current :: previousTracks (state p)) (state p)
      else state p
  | None => state p
  end.
Proof.
  unfold retireCurrent.
  destruct (currentTrack (state p)) as [current|]; [|reflexivity].
  destruct (differs current nextTrack); [|reflexivity].
  unfold when. rewrite bind_unit by reflexivity.
  rewrite triggerOnTrackEnd_state. reflexivity.
Qed.

(** What [playNextTrack] does to the current track and the three lists. *)
Lemma playNextTrack_queues (manualNextTrack : option PlayerTrack) (p : Player) :
  queues (after (playNextTrack manualNextTrack p)) =
  let '(nextTrack, priority, next) :=
    popped manualNextTrack (priorityTracks (state p)) (nextTracks (state p)) in
  (nextTrack, priority, next,
   match currentTrack (state p) with
   | Some current =>
       if differs current nextTrack
       then current :: previousTracks (state p)
       else previousTracks (state p)
   | None => previousTracks (state p)
   end).
Proof.
  assert (tail : forall nextTrack p1,
    queues (after ((retireCurrent nextTrack ;;
                    match nextTrack with
                    | Some nextTrack =>
                        activate nextTrack manualNextTrack ;;
                        triggerOnTrackStart ;;
                        play_active
                    | None =>
                        fun p =>
                          when (is_some (currentTrack (state p)))
                            (assign_state (set_currentTrack None) ;;
                             triggerOnStateChange) p
                    end) p1)) =
    (nextTrack, priorityTracks (state p1), nextTracks (state p1),
     match currentTrack (state p1) with
     | Some current =>
         if differs current nextTrack
         then current :: previousTracks (state p1)
         else previousTracks (state p1)
     | None => previousTracks (state p1)
     end)).
  { intros nextTrack p1.
    rewrite bind_unit by apply retireCurrent_never_throws.
    pose proof (retireCurrent_state nextTrack p1) as Hret.
    destruct nextTrack as [nextTrack|].
    - rewrite bind_unit by apply activate_never_throws.
      rewrite bind_unit by apply triggerOnTrackStart_never_throws.
      rewrite play_active_queues. unfold queues.
      rewrite triggerOnTrackStart_state, activate_state, Hret.
      destruct (currentTrack (state p1)) as [current|]; [|reflexivity].
      destruct (differs current (Some nextTrack)); reflexivity.
    - cbv beta. remember (after (retireCurrent None p1)) as p2 eqn:Hp2.
      unfold queues.
      destruct (currentTrack (state p1)) as [current|] eqn:Hcur; simpl differs in Hret.
      + assert (Hcur2 : currentTrack (state p2) = Some current)
          by (rewrite Hret; exact Hcur).
        rewrite Hcur2. unfold is_some, when.
        rewrite bind_unit by reflexivity.
        rewrite triggerOnStateChange_state.
        unfold assign_state, modify, after. simpl. rewrite Hret. reflexivity.
      + assert (Hcur2 : currentTrack (state p2) = None)
          by (rewrite Hret; exact Hcur).
        rewrite Hcur2. simpl. rewrite <- Hcur2, Hret. reflexivity. }
  unfold playNextTrack, playNextTrack_with.
  destruct manualNextTrack as [track|].
  - apply tail.
  - unfold bind at 1. unfold popNext, popped.
    destruct (priorityTracks (state p)) as [|track rest] eqn:Hprio.
    + destruct (nextTracks (state p)) as [|track rest] eqn:Hnext.
      * rewrite tail. rewrite Hprio, Hnext. reflexivity.
      * rewrite tail. destruct p as [? [] ? ? ? ? ? ? ? ? ? ? ? ?].
        simpl in *. subst. destruct isShuffled0; reflexivity.
    + rewrite tail. destruct p as [? [] ? ? ? ? ? ? ? ? ? ? ? ?].
      simpl in *. subst. reflexivity.
Qed.

(** *** [previousTrack] *)

Lemma audio_pause_state s : preserves state (audio_pause s).
Proof. frame. Qed.

Lemma audio_set_state s f : preserves state (audio_set s f).
Proof. frame. Qed.

Lemma audio_set_activeSlot s f : preserves activeSlot (audio_set s f).
Proof. frame. Qed.

Lemma audio_set_backend s f : preserves backend (audio_set s f).
Proof. frame. Qed.

Lemma triggerOnTrackStart_backend : preserves backend triggerOnTrackStart.
Proof. frame. Qed.

Lemma audio_set_get (s : Slot) (f : Audio.t -> Audio.t) (p : Player) (a : Audio.t) :
  slot_get s p = Some a ->
  slot_get s (after (audio_set s f p)) = Some (f a).
Proof.
  intro H. unfold audio_set, modify, after. rewrite H.
  destruct s, p; reflexivity.
Qed.

(** When the backend starts the source, [play] on a filled active slot
    leaves the element playing and the state not paused. *)
Lemma play_active_plays (p : Player) (a : Audio.t) :
  activeAudioElement p = Some a ->
  canPlay (backend p) (Audio.src a) = true ->
  activeAudioElement (after (play_active p)) = Some (Audio.set_paused false a) /\
  isPaused (state (after (play_active p))) = false.
Proof.
  destruct p as [host st ots ote osc oe sh act a1 a2 shadow rel log calls].
  unfold activeAudioElement, activeSlot. simpl. intros Ha Hplay.
  destruct act; simpl in Ha; subst;
    cbv [play_active play_with try_catch bind audio_play slot_get slot_put
         activeSlot isAudio1Active backend audio1 audio2];
    rewrite Hplay; destruct osc; split; reflexivity.
Qed.

Lemma id_same (t : PlayerTrack) : differs t (Some t) = false.
Proof. unfold differs. rewrite String.eqb_refl. reflexivity. Qed.

(** C6.  [previousTrack] on an instance whose active slot is filled.  When
    the element has played for 3 seconds or more, or there is no history,
    the current track stays and the same element, still active, is rewound
    to 0 and played again.  Otherwise the head of [previousTracks] becomes
    the current track and leaves the history, and the track that was
    current, if there was one, is put at the front of [nextTracks]. *)
Theorem previousTrack_restarts_or_goes_back (p : Player) (audio : Audio.t) :
  activeAudioElement p = Some audio ->
  let p' := after (previousTrack p) in
  ((3 <= Audio.currentTime audio)%Q \/ previousTracks (state p) = [] ->
   currentTrack (state p') = currentTrack (state p) /\
   activeSink p' = (activeSlot p, Some (Audio.src audio, 0%Q)) /\
   (canPlay (backend p) (Audio.src audio) = true ->
    isPaused (state p') = false /\
    option_map Audio.paused (activeAudioElement p') = Some false)) /\
  (forall lastPlayed rest,
     ~ (3 <= Audio.currentTime audio)%Q ->
     previousTracks (state p) = lastPlayed :: rest ->
     currentTrack (state p') = Some lastPlayed /\
     previousTracks (state p') = rest /\
     nextTracks (state p') =
       match currentTrack (state p) with
       | Some current => current :: nextTracks (state p)
       | None => nextTracks (state p)
       end).
Proof.
  intros Hactive p'.
  assert (Hp' : p' = after (previousTrack p)) by reflexivity. clearbody p'.
  pose proof play_never_throws as Hplay.
  pose proof playNextTrack_never_throws as Hnext.
  unfold previousTrack in Hp'.
  rewrite try_catch_returned in Hp';
    [| match goal with
       | |- threw (?m ?q) = false =>
           let H := fresh in assert (H : never_throws m) by no_throw; apply H
       end].
  unfold bind at 1 in Hp'. cbv beta zeta in Hp'.
  unfold activeAudioElement in Hactive. rewrite Hactive in Hp'.
  rewrite bind_unit in Hp' by reflexivity.
  set (s := activeSlot p) in *.
  set (p1 := after (audio_pause s p)) in *.
  assert (Hget1 : slot_get s p1 = Some (Audio.set_paused true audio))
    by (apply audio_set_get; exact Hactive).
  assert (Hstate1 : state p1 = state p) by apply audio_pause_state.
  assert (Hslot1 : activeSlot p1 = s) by apply audio_set_activeSlot.
  assert (Hhost1 : backend p1 = backend p) by apply audio_set_backend.
  cbv beta in Hp'. rewrite Hget1, Hstate1 in Hp'.
  change (Audio.currentTime (Audio.set_paused true audio))
    with (Audio.currentTime audio) in Hp'.
  split.
  - (* rewind *)
    intro Hcond.
    assert (Htest : Qle_bool 3 (Audio.currentTime audio)
                    || is_empty (previousTracks (state p)) = true).
    { destruct Hcond as [Hle|Hnil].
      - apply Qle_bool_iff in Hle. rewrite Hle. reflexivity.
      - rewrite Hnil. apply orb_true_r. }
    rewrite Htest in Hp'.
    rewrite bind_unit in Hp' by reflexivity.
    set (p2 := after (audio_set s (Audio.set_currentTime 0) p1)) in *.
    assert (Hget2 : slot_get s p2
                    = Some (Audio.set_currentTime 0 (Audio.set_paused true audio)))
      by (apply audio_set_get; exact Hget1).
    assert (Hstate2 : state p2 = state p)
      by (unfold p2; rewrite audio_set_state; exact Hstate1).
    assert (Hslot2 : activeSlot p2 = s)
      by (unfold p2; rewrite audio_set_activeSlot; exact Hslot1).
    assert (Hhost2 : backend p2 = backend p)
      by (unfold p2; rewrite audio_set_backend; exact Hhost1).
    set (announce := fun q : Player =>
           when (is_some (currentTrack (state q))) triggerOnTrackStart q) in *.
    assert (Hann_state : preserves state announce) by (unfold announce; frame).
    assert (Hann_sink : preserves activeSink announce) by (unfold announce; frame).
    assert (Hann_active : preserves activeAudioElement announce)
      by (unfold announce; frame).
    assert (Hann_host : preserves backend announce) by (unfold announce; frame).
    assert (Hann_throw : never_throws announce) by (unfold announce; no_throw).
    rewrite bind_unit in Hp' by apply Hann_throw.
    set (p3 := after (announce p2)) in *.
    assert (Hactive3 : activeAudioElement p3
                       = Some (Audio.set_currentTime 0 (Audio.set_paused true audio))).
    { unfold p3. rewrite Hann_active. unfold activeAudioElement.
      rewrite Hslot2. exact Hget2. }
    rewrite bind_unit in Hp' by apply Hplay.
    cbv beta in Hp'. unfold ret, after at 1 in Hp'.
    rewrite play_when_active in Hp' by (rewrite Hactive3; discriminate).
    subst p'.
    split; [|split].
    + change (currentTrack (state (after (play_active p3))))
        with (fst (fst (fst (queues (after (play_active p3)))))).
      rewrite play_active_queues. unfold queues. simpl.
      unfold p3. rewrite Hann_state, Hstate2. reflexivity.
    + rewrite play_active_activeSink. unfold p3. rewrite Hann_sink.
      unfold activeSink, activeAudioElement. rewrite Hslot2, Hget2. reflexivity.
    + intro Hcan.
      destruct (play_active_plays p3 _ Hactive3) as [Hel Hpaused].
      * unfold p3. rewrite Hann_host, Hhost2. exact Hcan.
      * split; [exact Hpaused | rewrite Hel; reflexivity].
  - (* back to the last played track *)
    intros lastPlayed rest Hlt Hprev.
    assert (Htest : Qle_bool 3 (Audio.currentTime audio)
                    || is_empty (previousTracks (state p)) = false).
    { rewrite Hprev. simpl. rewrite orb_false_r.
      destruct (Qle_bool 3 (Audio.currentTime audio)) eqn:E; [|reflexivity].
      apply Qle_bool_iff in E. contradiction. }
    rewrite Htest in Hp'.
    rewrite bind_unit in Hp' by reflexivity.
    rewrite bind_unit in Hp' by reflexivity.
    cbv beta in Hp'. unfold ret at 1 in Hp'. cbv iota beta in Hp'.
    match type of Hp' with
    | context [after (audio_set s (Audio.set_currentTime 0) ?q)] =>
        set (p2 := after (audio_set s (Audio.set_currentTime 0) q)) in *
    end.
    assert (Hstate2 : state p2 = state p).
    { unfold p2. rewrite !audio_set_state. exact Hstate1. }
    rewrite Hstate2, Hprev in Hp'.
    set (requeue := fun q : Player =>
           match currentTrack (state q) with
           | Some current =>
               (assign_state (set_nextTracks (current :: nextTracks (state q))) ;;
                triggerOnTrackEnd current) q
           | None => Returned tt q
           end) in *.
    assert (Hreq_throw : never_throws requeue) by (unfold requeue; no_throw).
    assert (Hreq_state :
              state (after (requeue p2)) =
              match currentTrack (state p) with
              | Some current =>
                  set_nextTracks (current :: nextTracks (state p)) (state p)
              | None => state p
              end).
    { unfold requeue. rewrite Hstate2.
      destruct (currentTrack (state p)) as [current|]; [|exact Hstate2].
      rewrite bind_unit by reflexivity. rewrite triggerOnTrackEnd_state.
      unfold assign_state, modify, after. simpl. rewrite Hstate2. reflexivity. }
    rewrite bind_unit in Hp' by apply Hreq_throw.
    rewrite bind_unit in Hp' by reflexivity.
    set (p3 := after (requeue p2)) in *.
    set (p4 := after (assign_state
                        (fun s0 => set_currentTrack (Some lastPlayed)
                                     (set_previousTracks rest s0)) p3)) in *.
    assert (Hstate4 : state p4 = set_currentTrack (Some lastPlayed)
                                   (set_previousTracks rest (state p3)))
      by reflexivity.
    pose proof (playNextTrack_queues (Some lastPlayed) p4) as Hq.
    rewrite <- Hp' in Hq.
    unfold queues, popped in Hq. rewrite Hstate4 in Hq.
    cbn [currentTrack priorityTracks nextTracks previousTracks
         set_currentTrack set_previousTracks] in Hq.
    rewrite id_same in Hq.
    injection Hq as Hcur _ Hnxt Hprv.
    rewrite Hcur, Hnxt, Hprv, Hreq_state.
    destruct (currentTrack (state p)); repeat split; reflexivity.
Qed.

(** *** [setRepeatMode] *)

(** C7, as the code has it.  [setRepeatMode(mode)] stores [mode]; the
    element of the active slot stays where it is and only its [loop] flag is
    assigned: [false] for [noRepeat], [true] for [repeatOnce] and for
    [repeatFull] alike. *)
Theorem setRepeatMode_loops_unless_noRepeat
    (mode : RepeatMode) (p : Player) (audio : Audio.t) :
  activeAudioElement p = Some audio ->
  let p' := after (setRepeatMode mode p) in
  repeatMode (state p') = mode /\
  activeSlot p' = activeSlot p /\
  activeAudioElement p' =
    Some (Audio.set_loop
            match mode with
            | noRepeat => false
            | repeatOnce => true
            | repeatFull => true
            end audio).
Proof.
  destruct p as [host st ots ote osc oe sh act a1 a2 shadow rel log calls].
  unfold activeAudioElement, activeSlot. simpl. intro Ha.
  destruct act; simpl in Ha; subst; destruct mode, osc;
    repeat split; reflexivity.
Qed.

(** *** Queue exhaustion *)

(** C10.  [playNextTrack()] with nothing left in [priorityTracks] and
    [nextTracks] while a track is current.  When lines 395-399 are done
    ([atTrackEnd]) the track is at the front of [previousTracks], [onTrackEnd]
    has been called with it, and it is still the current track; only then is
    [currentTrack] cleared and the state published. *)
Theorem queue_exhausted_keeps_history (p : Player) (current : PlayerTrack) :
  currentTrack (state p) = Some current ->
  priorityTracks (state p) = [] ->
  nextTracks (state p) = [] ->
  let atTrackEnd := after (retireCurrent None p) in
  let p' := after (playNextTrack None p) in
  (previousTracks (state atTrackEnd) = current :: previousTracks (state p) /\
   currentTrack (state atTrackEnd) = Some current /\
   notifications atTrackEnd =
     notifications p ++ (if onTrackEnd p then [TrackEnd current] else [])) /\
  playNextTrack None p =
    (assign_state (set_currentTrack None) ;; triggerOnStateChange) atTrackEnd /\
  (previousTracks (state p') = current :: previousTracks (state p) /\
   currentTrack (state p') = None /\
   notifications p' =
     notifications atTrackEnd
     ++ (if onStateChanged p then [StateChanged (state p')] else [])).
Proof.
  destruct p as [host st ots ote osc oe sh act a1 a2 shadow rel log calls].
  destruct st as [v ip pos rm ish cur prio next prev].
  simpl. intros -> -> ->.
  destruct ote, osc; cbv [after]; simpl;
    rewrite ?app_nil_r; repeat split; reflexivity.
Qed.

(** *** Shuffle *)






(** *** [playTracks] *)

Lemma setTracks_never_throws tracks playIndex :
  never_throws (setTracks tracks playIndex).
Proof. unfold setTracks. no_throw. Qed.

Lemma setTracks_state (tracks : list PlayerTrack) (playIndex : Z) (p : Player) :
  state (after (setTracks tracks playIndex p)) =
  set_nextTracks (slice tracks playIndex None)
    (set_previousTracks
       (if (0 <? playIndex)%Z && (playIndex <? Z.of_nat (List.length tracks))%Z
        then slice tracks 0 (Some (playIndex - 1)%Z)
        else [])
       (set_priorityTracks [] (state p))).
Proof.
  destruct p as [host st ots ote osc oe sh act a1 a2 shadow rel log calls].
  unfold setTracks.
  destruct ((0 <? playIndex)%Z && (playIndex <? Z.of_nat (List.length tracks))%Z);
    destruct act, a1, a2; reflexivity.
Qed.

Lemma setTracks_idle (tracks : list PlayerTrack) (playIndex : Z) (p : Player) :
  activeAudioElement (after (setTracks tracks playIndex p)) = None.
Proof.
  destruct p as [host st ots ote osc oe sh act a1 a2 shadow rel log calls].
  unfold setTracks.
  destruct ((0 <? playIndex)%Z && (playIndex <? Z.of_nat (List.length tracks))%Z);
    destruct act, a1, a2; reflexivity.
Qed.

(** [playTracks] is [playNextTrack] on the instance [setTracks] leaves, with
    the track that was current before the call as its argument. *)
Lemma playTracks_after (tracks : list PlayerTrack) (playIndex : Z) (p : Player) :
  after (playTracks tracks playIndex p) =
  after (playNextTrack (currentTrack (state p))
           (after (setTracks tracks playIndex p))).
Proof.
  unfold playTracks.
  rewrite bind_unit by apply setTracks_never_throws.
  rewrite play_when_idle by apply setTracks_idle.
  rewrite setTracks_state. reflexivity.
Qed.

Lemma slice_to_end {A} (l : list A) (start : Z) :
  slice l start None
  = skipn (Z.to_nat (slice_index (Z.of_nat (List.length l)) start)) l.
Proof.
  unfold slice. apply firstn_all2.
  rewrite length_skipn. unfold slice_index.
  destruct (start <? 0)%Z; lia.
Qed.

Lemma slice_from_0 {A} (l : list A) : slice l 0 None = l.
Proof.
  rewrite slice_to_end. unfold slice_index. simpl (0 <? 0)%Z. cbv iota.
  rewrite Z.min_l by lia. reflexivity.
Qed.

Lemma slice_negative {A} (l : list A) (start : Z) :
  (start < 0)%Z ->
  slice l start None = skipn (List.length l - Z.to_nat (- start)) l.
Proof.
  intro H. rewrite slice_to_end. unfold slice_index.
  destruct (Z.ltb_spec start 0); [|lia].
  f_equal. lia.
Qed.

Lemma slice_past_end {A} (l : list A) (start : Z) :
  (Z.of_nat (List.length l) <= start)%Z ->
  slice l start None = [].
Proof.
  intro H. rewrite slice_to_end. apply skipn_all2. unfold slice_index.
  destruct (Z.ltb_spec start 0); lia.
Qed.

Lemma slice_prefix {A} (l : list A) (stop : Z) :
  (0 <= stop)%Z ->
  slice l 0 (Some stop) = firstn (Z.to_nat stop) l.
Proof.
  intro H. unfold slice, slice_index. simpl (0 <? 0)%Z. cbv iota.
  destruct (Z.ltb_spec stop 0); [lia|].
  rewrite (Z.min_l 0) by lia. simpl skipn.
  rewrite Z.sub_0_r.
  destruct (Z.le_ge_cases stop (Z.of_nat (List.length l))).
  - rewrite Z.min_l by lia. reflexivity.
  - rewrite Z.min_r by lia. rewrite Nat2Z.id.
    rewrite !firstn_all2 by lia. reflexivity.
Qed.

(** The queue after [playTracks], from the queue [setTracks] leaves. *)
Lemma playTracks_queues (tracks : list PlayerTrack) (playIndex : Z) (p : Player) :
  queues (after (playTracks tracks playIndex p)) =
  let previous :=
    if (0 <? playIndex)%Z && (playIndex <? Z.of_nat (List.length tracks))%Z
    then slice tracks 0 (Some (playIndex - 1)%Z)
    else [] in
  match currentTrack (state p) with
  | Some current => (Some current, [], slice tracks playIndex None, previous)
  | None =>
      match slice tracks playIndex None with
      | track :: rest => (Some track, [], rest, previous)
      | [] => (None, [], [], previous)
      end
  end.
Proof.
  rewrite playTracks_after, playNextTrack_queues, setTracks_state.
  cbn [currentTrack priorityTracks nextTracks previousTracks
       set_nextTracks set_previousTracks set_priorityTracks].
  unfold popped.
  destruct (currentTrack (state p)) as [current|].
  - rewrite id_same. reflexivity.
  - destruct (slice tracks playIndex None); reflexivity.
Qed.

(** C8, as the code has it.  With [playIndex <= 0] or
    [playIndex >= tracks.length], [previousTracks] ends up empty.  What is
    played (on an instance without a current track) is
    [tracks.slice(playIndex)]: the whole list for 0, the last [-playIndex]
    tracks for a negative index, and nothing for an index at or past the
    end. *)
Theorem playTracks_out_of_range
    (tracks : list PlayerTrack) (playIndex : Z) (p : Player) :
  (playIndex <= 0 \/ Z.of_nat (List.length tracks) <= playIndex)%Z ->
  let p' := after (playTracks tracks playIndex p) in
  previousTracks (state p') = [] /\
  (currentTrack (state p) = None ->
   upcoming p' = slice tracks playIndex None /\
   (playIndex = 0%Z -> upcoming p' = tracks) /\
   ((playIndex < 0)%Z ->
    upcoming p' = skipn (List.length tracks - Z.to_nat (- playIndex)) tracks) /\
   ((Z.of_nat (List.length tracks) <= playIndex)%Z -> upcoming p' = [])).
Proof.
  intros Hrange p'.
  pose proof (playTracks_queues tracks playIndex p) as Hq.
  fold p' in Hq. unfold queues in Hq. cbv zeta in Hq.
  assert (Hcond : (0 <? playIndex)%Z
                  && (playIndex <? Z.of_nat (List.length tracks))%Z = false).
  { destruct (Z.ltb_spec 0 playIndex); [|reflexivity].
    destruct (Z.ltb_spec playIndex (Z.of_nat (List.length tracks)));
      [lia | reflexivity]. }
  rewrite Hcond in Hq.
  split.
  - destruct (currentTrack (state p)); [|destruct (slice tracks playIndex None)];
      injection Hq as _ _ _ Hprev; exact Hprev.
  - intro Hidle. rewrite Hidle in Hq.
    assert (Hup : upcoming p' = slice tracks playIndex None).
    { unfold upcoming.
      destruct (slice tracks playIndex None);
        injection Hq as Hcur _ Hnext _; rewrite Hcur, Hnext; reflexivity. }
    rewrite Hup. split; [reflexivity|]. split; [|split].
    + intros ->. apply slice_from_0.
    + apply slice_negative.
    + apply slice_past_end.
Qed.

(** ** The claims on concrete instances *)

Example playingB_queues :
  queues playingB = (Some trackB, [], [trackC], [trackA]) /\
  activeAudioElement playingB = Some sinkOfB /\
  activeAudioElement playingA = Some sinkOfA.
Proof. vm_compute. repeat split; reflexivity. Qed.

(** C6 at [playingB]: at 0 seconds A comes back and B is queued again; at 5
    seconds B stays and is rewound. *)
Lemma previousTrack_restarts_or_goes_back_witness :
  (currentTrack (state (after (previousTrack playingB))) = Some trackA /\
   previousTracks (state (after (previousTrack playingB))) = [] /\
   nextTracks (state (after (previousTrack playingB))) = [trackB; trackC]) /\
  currentTrack (state (after (previousTrack playingB5))) = Some trackB.
Proof.
  split.
  - apply (proj2 (previousTrack_restarts_or_goes_back playingB sinkOfB eq_refl)
             trackA []).
    + vm_compute. intro H. apply H. reflexivity.
    + reflexivity.
  - apply (proj1 (previousTrack_restarts_or_goes_back playingB5
                    (Audio.set_currentTime 5 sinkOfB) eq_refl)).
    left. vm_compute. discriminate.
Defined.

(** C7 at [playingA] with [repeatFull]: the element loops. *)
Lemma setRepeatMode_loops_unless_noRepeat_witness :
  activeAudioElement (after (setRepeatMode repeatFull playingA))
  = Some (Audio.set_loop true sinkOfA).
Proof.
  apply (setRepeatMode_loops_unless_noRepeat repeatFull playingA sinkOfA).
  reflexivity.
Defined.

(** C7 as stated fails: [loop] is not [true] for [repeatOnce] only. *)
Lemma setRepeatMode_loops_for_repeatFull :
  ~ (forall (mode : RepeatMode) (p : Player) (audio : Audio.t),
       activeAudioElement (after (setRepeatMode mode p)) = Some audio ->
       Audio.loop audio = true -> mode = repeatOnce).
Proof.
  intro H.
  assert (E : repeatFull = repeatOnce).
  { apply (H repeatFull playingA (Audio.set_loop true sinkOfA)); reflexivity. }
  discriminate E.
Qed.

(** C8 at [[A; B; C]] with [playIndex = 5]. *)
Lemma playTracks_out_of_range_witness :
  upcoming (after (playTracks [trackA; trackB; trackC] 5
                     (newPlayer reliable (unobserved 50)))) = [].
Proof.
  apply (playTracks_out_of_range [trackA; trackB; trackC] 5
           (newPlayer reliable (unobserved 50))).
  - right. simpl. lia.
  - reflexivity.
  - simpl. lia.
Defined.

(** C8 as stated fails: past the end nothing is queued, and a negative
    index queues the tail of the list. *)
Lemma playTracks_out_of_range_is_not_from_the_start :
  upcoming (after (playTracks [trackA; trackB; trackC] 3
                     (newPlayer reliable (unobserved 50)))) = [] /\
  upcoming (after (playTracks [trackA; trackB; trackC] (-1)
                     (newPlayer reliable (unobserved 50)))) = [trackC] /\
  ~ (forall (tracks : list PlayerTrack) (playIndex : Z),
       (playIndex <= 0 \/ Z.of_nat (List.length tracks) <= playIndex)%Z ->
       upcoming (after (playTracks tracks playIndex
                          (newPlayer reliable (unobserved 50)))) = tracks).
Proof.
  split; [|split].
  - vm_compute. reflexivity.
  - vm_compute. reflexivity.
  - intro H.
    specialize (H [trackA; trackB; trackC] 3%Z).
    assert (E : upcoming (after (playTracks [trackA; trackB; trackC] 3
                  (newPlayer reliable (unobserved 50))))
                = [trackA; trackB; trackC]).
    { apply H. right. simpl. lia. }
    vm_compute in E. discriminate E.
Qed.


(** C10 at [observedPlayingA]: A ends and nothing is queued. *)
Lemma queue_exhausted_keeps_history_witness :
  previousTracks (state (after (playNextTrack None observedPlayingA))) = [trackA] /\
  currentTrack (state (after (playNextTrack None observedPlayingA))) = None.
Proof.
  pose proof (queue_exhausted_keeps_history observedPlayingA trackA
                eq_refl eq_refl eq_refl) as H.
  cbv zeta in H. destruct H as [_ [_ [Hprev [Hcur _]]]].
  split; [exact Hprev | exact Hcur].
Defined.

(** C1 on the code.  [playTracks([A, B, C], 2)] on a new instance: C becomes
    the current track and [nextTracks] is empty, but [previousTracks] is
    [[A]]: B, the track just before [playIndex], is in none of the lists.
    On an instance that is playing Z, Z stays the current track and C stays
    in [nextTracks]. *)
Theorem playTracks_valid_index_on_the_code :
  queues (after (playTracks [trackA; trackB; trackC] 2
                   (newPlayer reliable (unobserved 50))))
  = (Some trackC, [], [], [trackA]) /\
  queues (after (playTracks [trackA; trackB; trackC] 2 playingZ))
  = (Some trackZ, [], [trackC], [trackA]).
Proof. vm_compute. split; reflexivity. Qed.

(** C2 on the code.  When A ends, [playNextTrack] lets go of the element of
    A with its four callbacks cleared.  [playTracks] on the same instance
    lets go of it with its callbacks attached. *)
Theorem playTracks_releases_with_callbacks :
  map Audio.detached (released playingB) = [true] /\
  released (after (playTracks [trackZ] 0 playingA))
  = [Audio.set_paused true sinkOfA] /\
  releasedDetached (after (playTracks [trackZ] 0 playingA)) = false.
Proof. vm_compute. repeat split; reflexivity. Qed.

(** C3 on the code.  With a shuffle override that throws, [enableShuffle]
    throws to its caller and [onError] is not called; [isShuffled] is left
    [true].  [playTracks] on a backend that rejects [audio.play()] returns
    and reports the rejection to [onError]. *)
Theorem enableShuffle_throws_to_the_caller :
  enableShuffle (newPlayer reliable observedFailingShuffle)
  = Threw (UserError "shuffle failed")
      (set_state (set_isShuffled true
                    (state (newPlayer reliable observedFailingShuffle)))
         (newPlayer reliable observedFailingShuffle)) /\
  notifications (after (enableShuffle (newPlayer reliable observedFailingShuffle)))
  = [] /\
  threw (playTracks [trackA] 0 (newPlayer unreliable observed)) = false /\
  In (Error (Caught (PlayRejected "a.mp3")))
     (notifications (after (playTracks [trackA] 0 (newPlayer unreliable observed)))).
Proof.
  repeat split; try (vm_compute; reflexivity).
  vm_compute. tauto.
Qed.

(** C5 on the code.  On a new instance with volume 50, [playTracks([A, B, C])]
    assigns 50 to the element of A.  With B buffered, [setVolume(50)] assigns
    50/100 to both elements; [nextTrack()] then makes the element of B
    active and assigns it the state's 50. *)
Theorem playNextTrack_assigns_the_percentage :
  option_map Audio.volume (activeAudioElement playingA) = Some 50 /\
  volume (state bufferedB) = 50 /\
  option_map Audio.volume (audio1 bufferedB) = Some (50 / 100) /\
  option_map Audio.volume (audio2 bufferedB) = Some (50 / 100) /\
  activeSlot (after (nextTrack bufferedB)) = Slot1 /\
  option_map Audio.src (activeAudioElement (after (nextTrack bufferedB)))
  = Some "b.mp3" /\
  option_map Audio.volume (activeAudioElement (after (nextTrack bufferedB)))
  = Some 50.
Proof. vm_compute. repeat split; reflexivity. Qed.

(** C9 on the code.  The values the claim lists for 0, 65, 3661, [NaN] and
    negative infinity are the code's; positive infinity passes the test
    [seconds >= 3600] and gives an hours field.  (A negative number, which
    is no duration, gives a negative minutes field.) *)
Theorem getTimeDisplay_Infinity :
  getTimeDisplay (JS.Num 0) = "0:00" /\
  getTimeDisplay (JS.Num 65) = "1:05" /\
  getTimeDisplay (JS.Num 3661) = "1:01:01" /\
  getTimeDisplay JS.NaN = "0:00" /\
  getTimeDisplay JS.NegInfinity = "0:00" /\
  getTimeDisplay JS.Infinity = "Infinity:00:00" /\
  getTimeDisplay (JS.Num (-5)) = "-1:0-5".
Proof. vm_compute. repeat split; reflexivity. Qed.

(** ** Further properties of the code *)

Lemma skipn_nth {A} (l : list A) (n : nat) :
  (n < List.length l)%nat ->
  exists x, nth_error l n = Some x /\ skipn n l = x :: skipn (S n) l.
Proof.
  revert n. induction l as [|a l IH]; intros n Hn; simpl in Hn.
  - lia.
  - destruct n as [|n].
    + exists a. split; reflexivity.
    + destruct (IH n) as [x [Hx Hs]]; [lia|].
      exists x. split; [exact Hx | exact Hs].
Qed.

(** [playTracks] with [0 < playIndex < tracks.length] on an instance without a
    current track: the track at [playIndex] becomes the current track,
    [nextTracks] holds the tracks after it, and [previousTracks] holds the
    first [playIndex - 1] tracks, in the order of [tracks]. *)
Theorem playTracks_valid_index
    (tracks : list PlayerTrack) (playIndex : Z) (p : Player) :
  (0 < playIndex < Z.of_nat (List.length tracks))%Z ->
  currentTrack (state p) = None ->
  let p' := after (playTracks tracks playIndex p) in
  previousTracks (state p') = firstn (Z.to_nat playIndex - 1) tracks /\
  currentTrack (state p') = nth_error tracks (Z.to_nat playIndex) /\
  nextTracks (state p') = skipn (S (Z.to_nat playIndex)) tracks.
Proof.
  intros [Hlo Hhi] Hidle p'.
  pose proof (playTracks_queues tracks playIndex p) as Hq.
  fold p' in Hq. unfold queues in Hq. cbv zeta in Hq.
  rewrite Hidle in Hq.
  assert (Hcond : (0 <? playIndex)%Z
                  && (playIndex <? Z.of_nat (List.length tracks))%Z = true).
  { apply andb_true_intro. split; apply Z.ltb_lt; assumption. }
  rewrite Hcond in Hq.
  rewrite slice_prefix in Hq by lia.
  rewrite slice_to_end in Hq. unfold slice_index in Hq.
  destruct (Z.ltb_spec playIndex 0) as [|_]; [lia|].
  rewrite Z.min_l in Hq by lia.
  destruct (skipn_nth tracks (Z.to_nat playIndex)) as [x [Hx Hs]]; [lia|].
  rewrite Hs in Hq. injection Hq as Hcur _ Hnext Hprev.
  rewrite Hcur, Hnext, Hprev, Hx.
  repeat split. f_equal. lia.
Qed.

Lemma playTracks_valid_index_witness :
  previousTracks (state (after (playTracks [trackA; trackB; trackC; trackZ] 2
                                  (newPlayer reliable (unobserved 50)))))
  = [trackA].
Proof.
  apply (playTracks_valid_index [trackA; trackB; trackC; trackZ] 2
           (newPlayer reliable (unobserved 50))).
  - simpl. lia.
  - reflexivity.
Defined.


(** Advancing without a manual track: the head of [priorityTracks] is taken
    when there is one, whatever [isShuffled] is, and [nextTracks] is left
    alone; otherwise the head of [nextTracks] is taken.  The track taken
    leaves its list and becomes the current track; the track that was
    current goes to the front of [previousTracks] unless it has the same
    [id]. *)
Theorem playNextTrack_takes_the_head (p : Player) :
  let p' := after (playNextTrack None p) in
  let retired :=
    match currentTrack (state p) with
    | Some current =>
        if differs current (currentTrack (state p'))
        then current :: previousTracks (state p)
        else previousTracks (state p)
    | None => previousTracks (state p)
    end in
  previousTracks (state p') = retired /\
  match priorityTracks (state p), nextTracks (state p) with
  | track :: rest, next =>
      currentTrack (state p') = Some track /\
      priorityTracks (state p') = rest /\
      nextTracks (state p') = next
  | [], track :: rest =>
      currentTrack (state p') = Some track /\
      priorityTracks (state p') = [] /\
      nextTracks (state p') = rest
  | [], [] =>
      currentTrack (state p') = None /\
      priorityTracks (state p') = [] /\
      nextTracks (state p') = []
  end.
Proof.
  intros p'. pose proof (playNextTrack_queues None p) as Hq.
  fold p' in Hq. unfold queues, popped in Hq.
  destruct (priorityTracks (state p)) as [|track rest];
    [destruct (nextTracks (state p)) as [|track rest]|];
    injection Hq as Hcur Hprio Hnext Hprev;
    rewrite Hcur, Hprio, Hnext, Hprev; repeat split.
Qed.


(** *** [getTimeDisplay] on finite, non-negative arguments *)









(** *** Teardown: which commands let go of an element with callbacks *)

Lemma maintains_ret {A} (I : Player -> bool) (a : A) : maintains I (ret a).
Proof. intros p H. exact H. Qed.

Lemma maintains_bind {A B} (I : Player -> bool) (m : M A) (k : A -> M B) :
  maintains I m -> (forall a, maintains I (k a)) -> maintains I (bind m k).
Proof.
  intros Hm Hk p H. unfold bind. specialize (Hm p H).
  destruct (m p) as [a p'|ex p']; simpl in *.
  - apply Hk. exact Hm.
  - exact Hm.
Qed.

Lemma maintains_try_catch {A} (I : Player -> bool) (m : M A) (h : Exn -> M A) :
  maintains I m -> (forall ex, maintains I (h ex)) -> maintains I (try_catch m h).
Proof.
  intros Hm Hh p H. unfold try_catch. specialize (Hm p H).
  destruct (m p) as [a p'|ex p']; simpl in *.
  - exact Hm.
  - apply Hh. exact Hm.
Qed.

Lemma maintains_when (I : Player -> bool) (c : bool) (m : M unit) :
  maintains I m -> maintains I (when c m).
Proof. intros Hm. destruct c; [exact Hm | apply maintains_ret]. Qed.

Lemma maintains_modify (I : Player -> bool) (g : Player -> Player) :
  (forall p, I p = true -> I (g p) = true) -> maintains I (modify g).
Proof. intros Hg p H. apply Hg. exact H. Qed.

Lemma maintains_gets {A} (I : Player -> bool) (g : Player -> A) :
  maintains I (gets g).
Proof. intros p H. exact H. Qed.

Ltac invariant_value H :=
  cbv [after]; try exact H;
  lazymatch goal with
  | |- _ = true =>
      lazymatch type of H with
      | _ ?q = true =>
          revert H;
          repeat match goal with
                 | E : _ = _ |- _ => revert E
                 end;
          destruct q; cbv; split_vars; intros; subst;
          try discriminate; try assumption; congruence
      end
  end.

(** [invariant] proves [maintains I m] along the structure of [m]. *)
Ltac invariant_rec :=
  lazymatch goal with
  | |- maintains _ (bind _ _) =>
      apply maintains_bind; [ invariant_rec | intro; cbv beta; invariant_rec ]
  | |- maintains _ (try_catch _ _) =>
      apply maintains_try_catch; [ invariant_rec | intro; cbv beta; invariant_rec ]
  | |- maintains _ (ret _) => apply maintains_ret
  | |- maintains _ (gets _) => apply maintains_gets
  | |- maintains _ (when _ _) => apply maintains_when; invariant_rec
  | |- maintains _ (modify _) =>
      apply maintains_modify;
      let p := fresh "p" in
      let H := fresh "H" in
      intros p H; invariant_value H
  | |- maintains _ (if ?c then _ else _) => destruct c; invariant_rec
  | |- maintains _ (match ?x with _ => _ end) => destruct x; invariant_rec
  | |- maintains _ (fun _ => _) =>
      let q := fresh "q" in
      let H := fresh "H" in
      intros q H; cbv beta zeta; invariant_at H
  | |- maintains _ ?m =>
      first [ solve [eauto 2]
            | let h := head_of m in unfold h; invariant_rec ]
  end
with invariant_at H :=
  lazymatch goal with
  | |- _ (after (Returned _ _)) = true => invariant_value H
  | |- _ (after (Threw _ _)) = true => invariant_value H
  | |- _ (after (match ?x with _ => _ end)) = true =>
      destruct x eqn:?; invariant_at H
  | |- ?I (after (?m ?q)) = true =>
      let K := fresh in
      assert (K : maintains I m) by (tidy; invariant_rec); apply K; exact H
  end.

Ltac invariant := tidy; invariant_rec.

(** The five statements of a teardown leave only detached elements behind. *)
Lemma destroy_detached (s : Slot) : maintains releasedDetached (destroy s).
Proof.
  intros p H.
  destruct p as [host st ots ote osc oe sh act a1 a2 shadow rel log calls].
  destruct s; [destruct a1 as [a|] | destruct a2 as [a|]];
    try exact H; cbv in H |- *; exact H.
Qed.

Lemma activate_detached t m : maintains releasedDetached (activate t m).
Proof. pose proof destroy_detached. unfold activate. invariant. Qed.

Lemma play_active_detached : maintains releasedDetached play_active.
Proof. unfold play_active, play_with. invariant. Qed.

Lemma playNextTrack_detached m : maintains releasedDetached (playNextTrack m).
Proof.
  pose proof activate_detached. pose proof play_active_detached.
  unfold playNextTrack, playNextTrack_with. invariant.
Qed.

Lemma play_detached : maintains releasedDetached play.
Proof. pose proof playNextTrack_detached. unfold play, play_with. invariant. Qed.

Lemma bufferNextTrack_detached : maintains releasedDetached bufferNextTrack.
Proof. pose proof destroy_detached. unfold bufferNextTrack. invariant. Qed.

Lemma setRepeatMode_detached mode : maintains releasedDetached (setRepeatMode mode).
Proof. unfold setRepeatMode. invariant. Qed.

(** Every command but [playTracks], and every event of the backend, keeps
    the elements that no slot refers to free of callbacks: [playNextTrack]
    and [bufferNextTrack] clear the four callbacks before they set a slot to
    [null], and nothing else sets one to [null]. *)
Theorem teardown_clears_callbacks_outside_playTracks :
  (forall pct, maintains releasedDetached (setVolume pct)) /\
  (forall mode, maintains releasedDetached (setRepeatMode mode)) /\
  maintains releasedDetached enableShuffle /\
  maintains releasedDetached disableShuffle /\
  maintains releasedDetached pause /\
  maintains releasedDetached play /\
  maintains releasedDetached togglePlay /\
  (forall position, maintains releasedDetached (seek position)) /\
  maintains releasedDetached previousTrack /\
  maintains releasedDetached nextTrack /\
  (forall tracks, maintains releasedDetached (queuePriorityTracks tracks)) /\
  (forall id', maintains releasedDetached (removePriorityTrack id')) /\
  maintains releasedDetached clearPriorityTracks /\
  (forall s ev, maintains releasedDetached (fire s ev)).
Proof.
  pose proof playNextTrack_detached as Hnext.
  pose proof play_detached as Hplay.
  pose proof bufferNextTrack_detached as Hbuffer.
  pose proof setRepeatMode_detached as Hrepeat.
  assert (Hpause : maintains releasedDetached pause)
    by (unfold pause; invariant).
  repeat split.
  - intro pct. unfold setVolume. invariant.
  - exact Hrepeat.
  - unfold enableShuffle. invariant.
  - unfold disableShuffle. invariant.
  - exact Hpause.
  - exact Hplay.
  - unfold togglePlay. invariant.
  - intro position. unfold seek. invariant.
  - unfold previousTrack. invariant.
  - unfold nextTrack. invariant.
  - intro tracks. unfold queuePriorityTracks. invariant.
  - intro id'. unfold removePriorityTrack. invariant.
  - unfold clearPriorityTracks. invariant.
  - intros s ev. unfold fire, run_handler, onPlayerProgress, onPlayerTrackEnd.
    invariant.
Qed.

(** ** The default shuffle *)

Lemma assignAt_head (y a : PlayerTrack) (l : list PlayerTrack) :
  assignAt 0 y (a :: l) = y :: l.
Proof. reflexivity. Qed.

Lemma assignAt_tail (i : nat) (y a : PlayerTrack) (l : list PlayerTrack) :
  assignAt (S i) y (a :: l) = a :: assignAt i y l.
Proof. reflexivity. Qed.

Lemma swap_assignAt (i j : nat) (l : list PlayerTrack) (x y : PlayerTrack) :
  nth_error l i = Some x -> nth_error l j = Some y ->
  swap i j l = assignAt j x (assignAt i y l).
Proof. intros Hi Hj. unfold swap, assignAt. rewrite Hi, Hj. reflexivity. Qed.

Lemma assignAt_takes_out (l : list PlayerTrack) (j : nat) (y a : PlayerTrack) :
  nth_error l j = Some y ->
  Permutation (y :: assignAt j a l) (a :: l).
Proof.
  revert j. induction l as [|b l IH]; intros j Hj.
  - destruct j; discriminate.
  - destruct j as [|j]; simpl in Hj.
    + injection Hj as ->. rewrite assignAt_head. apply perm_swap.
    + rewrite assignAt_tail.
      apply perm_trans with (b :: y :: assignAt j a l); [apply perm_swap|].
      apply perm_trans with (b :: a :: l); [|apply perm_swap].
      apply perm_skip. apply IH. exact Hj.
Qed.

Lemma assignAt_twice_perm (l : list PlayerTrack) (i j : nat) (x y : PlayerTrack) :
  nth_error l i = Some x -> nth_error l j = Some y ->
  Permutation (assignAt j x (assignAt i y l)) l.
Proof.
  revert i j. induction l as [|a l IH]; intros i j Hi Hj.
  - destruct i; discriminate.
  - destruct i as [|i], j as [|j]; simpl in Hi, Hj.
    + injection Hi as ->. injection Hj as ->. reflexivity.
    + injection Hi as ->. rewrite assignAt_head, assignAt_tail.
      apply assignAt_takes_out. exact Hj.
    + injection Hj as ->. rewrite assignAt_tail, assignAt_head.
      apply assignAt_takes_out. exact Hi.
    + rewrite !assignAt_tail. apply perm_skip. apply IH; assumption.
Qed.

Lemma swap_perm (i j : nat) (l : list PlayerTrack) :
  Permutation (swap i j l) l.
Proof.
  destruct (nth_error l i) as [x|] eqn:Hi;
    [destruct (nth_error l j) as [y|] eqn:Hj|].
  - rewrite (swap_assignAt i j l x y Hi Hj).
    apply assignAt_twice_perm; assumption.
  - unfold swap. rewrite Hi, Hj. reflexivity.
  - unfold swap. rewrite Hi. reflexivity.
Qed.

(** With [Math.random()] in [0, 1), [randomIndex] is below [currentIndex]. *)
Lemma randomIndex_in_range (r : Q) (currentIndex : nat) :
  (0 <= r)%Q -> (r < 1)%Q -> (0 < currentIndex)%nat ->
  (Z.to_nat (Qfloor (r * inject_Z (Z.of_nat currentIndex))) < currentIndex)%nat.
Proof.
  intros H0 H1 Hn.
  set (n := Z.of_nat currentIndex).
  assert (Hn' : (0 < inject_Z n)%Q).
  { change 0%Q with (inject_Z 0). rewrite <- Zlt_Qlt. unfold n. lia. }
  assert (Hlo : (0 <= Qfloor (r * inject_Z n))%Z).
  { change 0%Z with (Qfloor 0). apply Qfloor_resp_le.
    apply Qmult_le_0_compat; [exact H0 | apply Qlt_le_weak; exact Hn']. }
  assert (Hhi : (Qfloor (r * inject_Z n) < n)%Z).
  { rewrite Zlt_Qlt.
    apply Qle_lt_trans with (r * inject_Z n)%Q; [apply Qfloor_le|].
    rewrite <- (Qmult_1_l (inject_Z n)) at 2.
    apply Qmult_lt_compat_r; assumption. }
  unfold n in *. lia.
Qed.

Lemma shuffleLoop_perm (random : nat -> Q) (currentIndex : nat)
    (l : list PlayerTrack) (calls : nat) :
  Permutation (fst (shuffleLoop random currentIndex l calls)) l /\
  snd (shuffleLoop random currentIndex l calls) = (calls + currentIndex)%nat.
Proof.
  revert l calls. induction currentIndex as [|n IH]; intros l calls.
  - simpl. split; [reflexivity | lia].
  - cbn [shuffleLoop]. cbv zeta.
    destruct (IH (swap n (Z.to_nat (Qfloor (random calls * inject_Z (Z.of_nat (S n))))) l)
                 (S calls)) as [Hp Hc].
    split.
    + eapply perm_trans; [exact Hp | apply swap_perm].
    + rewrite Hc. lia.
Qed.

(** Every swap of the loop is inside the array when [Math.random()] is in
    [0, 1): the two elements exist, so the loop only exchanges them. *)
Lemma shuffleLoop_swaps_inside (random : nat -> Q) (currentIndex calls : nat)
    (l : list PlayerTrack) :
  (forall k, (0 <= random k)%Q /\ (random k < 1)%Q) ->
  (S currentIndex <= List.length l)%nat ->
  let randomIndex :=
    Z.to_nat (Qfloor (random calls * inject_Z (Z.of_nat (S currentIndex)))) in
  exists x y,
    nth_error l currentIndex = Some x /\ nth_error l randomIndex = Some y /\
    swap currentIndex randomIndex l = assignAt randomIndex x (assignAt currentIndex y l).
Proof.
  intros Hr Hlen randomIndex.
  assert (Hri : (randomIndex < S currentIndex)%nat)
    by (apply randomIndex_in_range; [apply Hr | apply Hr | lia]).
  destruct (nth_error l currentIndex) as [x|] eqn:Hx.
  2:{ apply nth_error_None in Hx. lia. }
  destruct (nth_error l randomIndex) as [y|] eqn:Hy.
  2:{ apply nth_error_None in Hy. lia. }
  exists x, y. repeat split. apply swap_assignAt; assumption.
Qed.

(** [enableShuffle] with the default strategy, for a backend whose
    [Math.random()] is in [0, 1): the call returns, [nextTracks] becomes a
    permutation of the shadow list (no track lost, none twice), the shadow
    list, the current track, [priorityTracks] and [previousTracks] stay, and
    [Math.random()] has been called once per track. *)
Theorem enableShuffle_default_permutes (p : Player) :
  shuffle p = None ->
  (forall k, (0 <= random (backend p) k)%Q /\ (random (backend p) k < 1)%Q) ->
  let p' := after (enableShuffle p) in
  threw (enableShuffle p) = false /\
  isShuffled (state p') = true /\
  Permutation (nextTracks (state p')) (nonShuffledNextTracks p) /\
  nonShuffledNextTracks p' = nonShuffledNextTracks p /\
  currentTrack (state p') = currentTrack (state p) /\
  priorityTracks (state p') = priorityTracks (state p) /\
  previousTracks (state p') = previousTracks (state p) /\
  randomCalls p' = (randomCalls p + List.length (nonShuffledNextTracks p))%nat.
Proof.
  intros Hnone _ p'.
  destruct p as [host st ots ote osc oe sh act a1 a2 shadow rel log calls].
  simpl in Hnone. subst sh.
  pose proof (shuffleLoop_perm (random host) (List.length shadow) shadow calls)
    as [Hperm Hcalls].
  unfold p', enableShuffle, shuffled, defaultShuffle.
  cbv [bind assign_state modify gets shuffle nonShuffledNextTracks set_state
       backend randomCalls state].
  destruct (shuffleLoop (random host) (List.length shadow) shadow calls)
    as [shuffledList calls'] eqn:Hloop.
  simpl in Hperm, Hcalls.
  destruct osc; simpl; repeat split; assumption.
Qed.

Lemma enableShuffle_default_permutes_witness :
  Permutation (nextTracks (state (after (enableShuffle playingA))))
    [trackB; trackC].
Proof.
  assert (Hrandom : forall k,
            (0 <= random (backend playingA) k)%Q /\
            (random (backend playingA) k < 1)%Q).
  { intro k. split; [discriminate | reflexivity]. }
  pose proof (enableShuffle_default_permutes playingA eq_refl Hrandom) as H.
  cbv zeta in H. exact (proj1 (proj2 (proj2 H))).
Defined.

(** ** [previousTrack] by stages *)

Lemma goBack_never_throws : never_throws goBack.
Proof. pose proof playNextTrack_never_throws. unfold goBack. no_throw. Qed.

Lemma announceRestart_never_throws : never_throws announceRestart.
Proof. unfold announceRestart. no_throw. Qed.

Lemma previousTrack_staged_never_throws : never_throws previousTrack_staged.
Proof.
  pose proof goBack_never_throws. pose proof announceRestart_never_throws.
  pose proof play_active_never_throws.
  unfold previousTrack_staged. no_throw.
Qed.

(** The method and its stages leave the same instance. *)
Lemma previousTrack_stages (p : Player) :
  after (previousTrack p) = after (previousTrack_staged p).
Proof.
  pose proof play_never_throws as Hplay.
  pose proof playNextTrack_never_throws as Hnext.
  unfold previousTrack.
  rewrite try_catch_returned;
    [| match goal with
       | |- threw (?m ?q) = false =>
           let H := fresh in assert (H : never_throws m) by no_throw; apply H
       end].
  unfold bind at 1. cbv beta zeta.
  unfold previousTrack_staged, restarts, activeAudioElement. cbv zeta.
  set (s := activeSlot p).
  destruct (slot_get s p) as [audio|] eqn:Hactive.
  - rewrite bind_unit by reflexivity.
    set (p1 := after (audio_pause s p)).
    assert (Hget1 : slot_get s p1 = Some (Audio.set_paused true audio))
      by (apply audio_set_get; exact Hactive).
    assert (Hstate1 : state p1 = state p) by apply audio_pause_state.
    assert (Hslot1 : activeSlot p1 = s) by apply audio_set_activeSlot.
    cbv beta. rewrite Hget1, Hstate1.
    change (Audio.currentTime (Audio.set_paused true audio))
      with (Audio.currentTime audio).
    destruct (Qle_bool 3 (Audio.currentTime audio)
              || is_empty (previousTracks (state p))).
    + rewrite !(bind_unit (audio_pause s)) by reflexivity. fold p1.
      rewrite !(bind_unit (audio_set s (Audio.set_currentTime 0))) by reflexivity.
      set (p2 := after (audio_set s (Audio.set_currentTime 0) p1)).
      assert (Hget2 : slot_get s p2 <> None).
      { unfold p2. rewrite (audio_set_get s _ p1 _ Hget1). discriminate. }
      assert (Hslot2 : activeSlot p2 = s)
        by (unfold p2; rewrite audio_set_activeSlot; exact Hslot1).
      fold announceRestart.
      rewrite !(bind_unit announceRestart) by apply announceRestart_never_throws.
      set (p3 := after (announceRestart p2)).
      assert (Hactive3 : activeAudioElement p3 <> None).
      { assert (Hpres : preserves activeAudioElement announceRestart)
          by (unfold announceRestart; frame).
        unfold p3. rewrite Hpres. unfold activeAudioElement.
        rewrite Hslot2. exact Hget2. }
      rewrite bind_unit by apply Hplay.
      cbv beta. unfold ret, after at 1.
      rewrite play_when_active by exact Hactive3. reflexivity.
    + rewrite !(bind_unit (audio_pause s)) by reflexivity. fold p1.
      rewrite !(bind_unit (audio_set s (Audio.set_oncanplaythrough None)))
        by reflexivity.
      rewrite !(bind_unit (audio_set s (Audio.set_currentTime 0))) by reflexivity.
      cbv beta. unfold ret at 1. cbv iota beta.
      reflexivity.
  - reflexivity.
Qed.

Lemma queues_of_state (p p' : Player) :
  state p' = state p -> queues p' = queues p.
Proof. intro H. unfold queues. rewrite H. reflexivity. Qed.

Lemma announceRestart_state : preserves state announceRestart.
Proof. unfold announceRestart. frame. Qed.

(** Going back: the head of the history becomes the current track, and the
    track that was current goes to the front of [nextTracks]. *)
Lemma goBack_queues (p : Player) :
  queues (after (goBack p)) =
  match previousTracks (state p) with
  | lastPlayed :: rest =>
      (Some lastPlayed, priorityTracks (state p),
       match currentTrack (state p) with
       | Some current => current :: nextTracks (state p)
       | None => nextTracks (state p)
       end,
       rest)
  | [] => queues p
  end.
Proof.
  unfold goBack.
  destruct (previousTracks (state p)) as [|lastPlayed rest] eqn:Hprev;
    [reflexivity|].
  assert (Hreq_throw : never_throws requeueCurrent)
    by (unfold requeueCurrent; no_throw).
  assert (Hreq_state :
            state (after (requeueCurrent p)) =
            match currentTrack (state p) with
            | Some current =>
                set_nextTracks (current :: nextTracks (state p)) (state p)
            | None => state p
            end).
  { unfold requeueCurrent.
    destruct (currentTrack (state p)) as [current|]; [|reflexivity].
    rewrite bind_unit by reflexivity. rewrite triggerOnTrackEnd_state.
    reflexivity. }
  rewrite bind_unit by apply Hreq_throw.
  rewrite bind_unit by reflexivity.
  set (p3 := after (requeueCurrent p)) in *.
  set (p4 := after (assign_state
                      (fun s0 => set_currentTrack (Some lastPlayed)
                                   (set_previousTracks rest s0)) p3)).
  assert (Hstate4 : state p4 = set_currentTrack (Some lastPlayed)
                                 (set_previousTracks rest (state p3)))
    by reflexivity.
  rewrite (playNextTrack_queues (Some lastPlayed) p4).
  unfold popped. rewrite Hstate4.
  cbn [currentTrack priorityTracks nextTracks previousTracks
       set_currentTrack set_previousTracks].
  rewrite id_same, Hreq_state.
  destruct (currentTrack (state p)); reflexivity.
Qed.

(** What [previousTrack] does to the current track and the three lists, on
    every instance. *)
Lemma previousTrack_queues (p : Player) :
  queues (after (previousTrack p)) =
  if restarts p then queues p
  else
    match previousTracks (state p) with
    | lastPlayed :: rest =>
        (Some lastPlayed, priorityTracks (state p),
         match currentTrack (state p) with
         | Some current => current :: nextTracks (state p)
         | None => nextTracks (state p)
         end,
         rest)
    | [] => queues p
    end.
Proof.
  rewrite previousTrack_stages. unfold previousTrack_staged. cbv zeta.
  set (s := activeSlot p).
  destruct (slot_get s p) as [audio|] eqn:Hactive.
  - destruct (restarts p).
    + rewrite bind_unit by reflexivity.
      rewrite bind_unit by reflexivity.
      rewrite bind_unit by apply announceRestart_never_throws.
      rewrite play_active_queues.
      apply queues_of_state.
      rewrite announceRestart_state, audio_set_state. apply audio_pause_state.
    + rewrite bind_unit by reflexivity.
      rewrite bind_unit by reflexivity.
      rewrite bind_unit by reflexivity.
      rewrite goBack_queues.
      rewrite !audio_set_state, audio_pause_state. unfold queues.
      rewrite !audio_set_state, audio_pause_state. reflexivity.
  - assert (Hno : restarts p = false).
    { unfold restarts, activeAudioElement. fold s. rewrite Hactive. reflexivity. }
    rewrite Hno. apply goBack_queues.
Qed.

(** ** No track is lost by moving through the queue *)

Lemma nextTrack_after (p : Player) :
  exists q, state q = set_isPaused (if is_some (activeAudioElement p)
                                    then true else isPaused (state p)) (state p) /\
            after (nextTrack p) = after (playNextTrack None q).
Proof.
  pose proof playNextTrack_never_throws as Hnext.
  unfold nextTrack.
  rewrite try_catch_returned;
    [| match goal with
       | |- threw (?m ?q) = false =>
           let H := fresh in
           assert (H : never_throws m) by no_throw; apply H
       end].
  match goal with
  | |- context [bind ?m _ p] =>
      assert (Hm : never_throws m) by no_throw;
      rewrite (bind_unit m) by apply Hm;
      exists (after (m p))
  end.
  split; [|reflexivity].
  cbv beta zeta. unfold activeAudioElement.
  destruct (slot_get (activeSlot p) p) as [a|] eqn:Ha; simpl when.
  - rewrite bind_unit by reflexivity.
    change (set_isPaused true (state (after (audio_pause (activeSlot p) p)))
            = set_isPaused true (state p)).
    rewrite audio_pause_state. reflexivity.
  - simpl. destruct p as [? [] ? ? ? ? ? ? ? ? ? ? ? ?]. reflexivity.
Qed.

(** [nextTrack] moves the tracks as [playNextTrack()] does. *)
Lemma nextTrack_queues (p : Player) :
  queues (after (nextTrack p)) = queues (after (playNextTrack None p)).
Proof.
  destruct (nextTrack_after p) as [q [Hq ->]].
  rewrite !playNextTrack_queues, Hq. reflexivity.
Qed.

Lemma perm_move_in {A} (x : A) (l1 l2 : list A) :
  Permutation (l1 ++ x :: l2) (x :: l1 ++ l2).
Proof. symmetry. apply Permutation_middle. Qed.

(** Lists built from the same pieces, with single tracks at other places. *)
Ltac peel :=
  first [ apply perm_skip
        | match goal with
          | |- Permutation (?x :: _) (?y :: ?x :: ?r) =>
              apply (Permutation_cons_app [y] r x)
          | |- Permutation (?x :: _) (?y :: ?z :: ?x :: ?r) =>
              apply (Permutation_cons_app [y; z] r x)
          end ];
  simpl.

Ltac same_tracks :=
  simpl; rewrite ?perm_move_in; simpl; repeat peel; reflexivity.

(** [nextTrack()] keeps every track the instance holds, in one of its lists
    or as the current track, unless the track it takes has the [id] of the
    current track: then the current track is in no list afterwards.
    [previousTrack()] keeps every track, always. *)
Theorem skipping_keeps_the_tracks (p : Player) :
  (let p' := after (nextTrack p) in
   match currentTrack (state p), currentTrack (state p') with
   | Some current, Some next =>
       if String.eqb (id current) (id next)
       then allTracks p = current :: allTracks p'
       else Permutation (allTracks p') (allTracks p)
   | _, _ => Permutation (allTracks p') (allTracks p)
   end) /\
  Permutation (allTracks (after (previousTrack p))) (allTracks p).
Proof.
  split.
  - cbv zeta. pose proof (nextTrack_queues p) as Hq.
    rewrite playNextTrack_queues in Hq. unfold queues, popped in Hq.
    unfold allTracks.
    destruct (currentTrack (state p)) as [current|];
      destruct (priorityTracks (state p)) as [|track rest];
      try destruct (nextTracks (state p)) as [|track' rest'];
      injection Hq as Hcur Hprio Hnext Hprev;
      rewrite Hcur, Hprio, Hnext, Hprev; unfold differs;
      try destruct (String.eqb (id current) _);
      first [ reflexivity | same_tracks ].
  - pose proof (previousTrack_queues p) as Hq. unfold queues in Hq.
    unfold allTracks.
    destruct (restarts p).
    + injection Hq as -> -> -> ->. reflexivity.
    + destruct (previousTracks (state p)) as [|lastPlayed rest].
      * injection Hq as -> -> -> ->. reflexivity.
      * injection Hq as Hcur Hprio Hnext Hprev.
        rewrite Hcur, Hprio, Hnext, Hprev.
        destruct (currentTrack (state p)) as [current|]; same_tracks.
Qed.

(** ** Activation: the slots swap roles *)









(** ** Buffering the next track *)

Ltac on_every_buffer_case p :=
  destruct p as [host st ots ote osc oe sh act a1 a2 shadow rel log calls];
  destruct st as [v ip pos rm ish cur prio next prev];
  destruct prio as [|t prio]; [destruct next as [|t next]|];
  destruct act,
    a1 as [[v1 src1 time1 loop1 paused1 preload1 [h1|] prog1 end1 can1]|],
    a2 as [[v2 src2 time2 loop2 paused2 preload2 [h2|] prog2 end2 can2]|],
    oe.

(** The commands on elements stay folded until the tests on [src] are
    decided. *)
Ltac split_on_src :=
  cbv -[String.eqb destroy create audio_set];
  repeat match goal with
         | |- context [String.eqb ?a ?b] =>
             let E := fresh "E" in
             destruct (String.eqb a b) eqn:E;
             cbv -[String.eqb destroy create audio_set]
         end;
  cbv -[String.eqb].

Lemma bufferNextTrack_state : preserves state bufferNextTrack.
Proof. intro p. on_every_buffer_case p; split_on_src; reflexivity. Qed.

Lemma bufferNextTrack_activeElement : preserves activeElement bufferNextTrack.
Proof. intro p. on_every_buffer_case p; split_on_src; reflexivity. Qed.

Lemma bufferNextTrack_never_throws : never_throws bufferNextTrack.
Proof. unfold bufferNextTrack. no_throw. Qed.

Lemma bufferNextTrack_twice (p : Player) :
  after (bufferNextTrack (after (bufferNextTrack p))) = after (bufferNextTrack p).
Proof.
  remember (after (bufferNextTrack p)) as p' eqn:Hp'.
  unfold bufferNextTrack in Hp'.
  on_every_buffer_case p;
    cbv -[String.eqb destroy create audio_set] in Hp';
    repeat match type of Hp' with
           | context [String.eqb ?a ?b] =>
               let E := fresh "E" in
               destruct (String.eqb a b) eqn:E;
               cbv -[String.eqb destroy create audio_set] in Hp'
           end;
    cbv -[String.eqb] in Hp'; subst p';
    cbv -[String.eqb destroy create audio_set];
    rewrite ?String.eqb_refl; try rewrite E;
    cbv -[String.eqb]; reflexivity.
Qed.

(** [bufferNextTrack] leaves the state and the active element alone.  When
    the queue has a head, the standby slot afterwards holds an element that
    has the [url] of the head as source and [preload = 'auto']; an element
    that already had this source is kept (its volume and position stay, and
    no element is let go of).  With an empty queue nothing changes.  A second
    call changes nothing. *)
Theorem bufferNextTrack_loads_the_head (p : Player) :
  let p' := after (bufferNextTrack p) in
  state p' = state p /\
  activeElement p' = activeElement p /\
  match headOfQueue p with
  | Some track =>
      exists buffer,
        standbyAudioElement p' = Some buffer /\
        Audio.src buffer = url track /\
        Audio.preload buffer = "auto" /\
        (forall standby,
           standbyAudioElement p = Some standby ->
           Audio.src standby = url track ->
           Audio.volume buffer = Audio.volume standby /\
           Audio.currentTime buffer = Audio.currentTime standby /\
           released p' = released p)
  | None => p' = p
  end /\
  after (bufferNextTrack p') = p'.
Proof.
  cbv zeta. split; [apply bufferNextTrack_state|].
  split; [apply bufferNextTrack_activeElement|].
  split; [|apply bufferNextTrack_twice].
  on_every_buffer_case p; split_on_src;
    try reflexivity;
    (eexists; split; [reflexivity|]; split; [reflexivity|];
     split; [reflexivity|];
     intros standby Hstandby Hsrc;
     try discriminate Hstandby;
     injection Hstandby as <-; cbv in Hsrc; subst;
     try (rewrite String.eqb_refl in *; discriminate);
     repeat split).
Qed.

(** ** The priority list *)

Lemma sinks_standby (p p' : Player) :
  sinks p' = sinks p ->
  standbyAudioElement p' = standbyAudioElement p /\ activeElement p' = activeElement p.
Proof.
  unfold sinks. intro H. injection H as Hact Ha1 Ha2 _.
  unfold standbyAudioElement, standbySlot, activeElement, activeAudioElement,
    activeSlot, slot_get.
  rewrite Hact, Ha1, Ha2. split; reflexivity.
Qed.

Lemma activeElement_parts (p p' : Player) :
  activeElement p' = activeElement p ->
  isAudio1Active p' = isAudio1Active p /\
  activeAudioElement p' = activeAudioElement p.
Proof. unfold activeElement. intro H. injection H as H1 H2. split; assumption. Qed.

Lemma triggerOnStateChange_sinks : preserves sinks triggerOnStateChange.
Proof. frame. Qed.

Lemma bufferNextTrack_standby (p : Player) (track : PlayerTrack) :
  headOfQueue p = Some track ->
  exists buffer,
    standbyAudioElement (after (bufferNextTrack p)) = Some buffer /\
    Audio.src buffer = url track.
Proof.
  on_every_buffer_case p; cbv [headOfQueue state priorityTracks nextTracks];
    intro Hhead; try discriminate Hhead; injection Hhead as ->;
    split_on_src; eexists; split; reflexivity.
Qed.

(** [queuePriorityTracks(tracks)] appends [tracks] to [priorityTracks] and
    leaves the other lists, the shadow list and the active element alone.
    When the priority list was empty and the standby slot holds an element,
    the standby element afterwards has the [url] of the head of the queue as
    source; otherwise the standby slot is as it was, so that no element is
    created where none is buffering. *)
Theorem queuePriorityTracks_retargets_the_standby
    (tracks : list PlayerTrack) (p : Player) :
  let p' := after (queuePriorityTracks tracks p) in
  threw (queuePriorityTracks tracks p) = false /\
  priorityTracks (state p') = priorityTracks (state p) ++ tracks /\
  besidePriorityTracks p' = besidePriorityTracks p /\
  (if is_empty (priorityTracks (state p)) && is_some (standbyAudioElement p)
   then match headOfQueue p' with
        | Some track =>
            exists buffer,
              standbyAudioElement p' = Some buffer /\ Audio.src buffer = url track
        | None => standbyAudioElement p' = standbyAudioElement p
        end
   else standbyAudioElement p' = standbyAudioElement p).
Proof.
  cbv zeta.
  pose proof bufferNextTrack_never_throws as Hbuf.
  split.
  { assert (H : never_throws (queuePriorityTracks tracks))
      by (unfold queuePriorityTracks; no_throw).
    apply H. }
  set (p1 := after (assign_state
                      (set_priorityTracks (priorityTracks (state p) ++ tracks)) p)).
  set (buffering :=
         when (negb (negb (is_empty (priorityTracks (state p)))))
           (fun p =>
              when ((isAudio1Active p && is_some (audio2 p)) ||
                    (negb (isAudio1Active p) && is_some (audio1 p)))
                bufferNextTrack p)).
  set (p2 := after (buffering p1)).
  assert (Hrun : after (queuePriorityTracks tracks p)
                 = after (triggerOnStateChange p2)).
  { unfold queuePriorityTracks. unfold bind at 1, gets. cbv beta.
    rewrite bind_unit by reflexivity.
    assert (Hm : never_throws buffering) by (unfold buffering; no_throw).
    fold p1. fold buffering.
    rewrite (bind_unit buffering) by apply Hm. reflexivity. }
  rewrite Hrun.
  assert (Hstate1 : state p1
                    = set_priorityTracks (priorityTracks (state p) ++ tracks) (state p))
    by reflexivity.
  assert (Hsinks1 : sinks p1 = sinks p) by reflexivity.
  assert (Hshadow1 : nonShuffledNextTracks p1 = nonShuffledNextTracks p)
    by reflexivity.
  assert (Hstate' : state (after (triggerOnStateChange p2)) = state p2)
    by apply triggerOnStateChange_state.
  assert (Hshadow' : nonShuffledNextTracks (after (triggerOnStateChange p2))
                     = nonShuffledNextTracks p2).
  { assert (H : preserves nonShuffledNextTracks triggerOnStateChange) by frame.
    apply H. }
  destruct (sinks_standby p2 _ (triggerOnStateChange_sinks p2)) as [Hsb' Hae'].
  assert (Hhead' : headOfQueue (after (triggerOnStateChange p2)) = headOfQueue p2)
    by (unfold headOfQueue; rewrite Hstate'; reflexivity).
  rewrite Hhead', Hsb'.
  unfold besidePriorityTracks.
  apply activeElement_parts in Hae'. destruct Hae' as [Hflag' Hactive'].
  rewrite Hstate', Hshadow', Hflag', Hactive'.
  destruct (sinks_standby p p1 Hsinks1) as [Hsb1 Hae1].
  apply activeElement_parts in Hae1. destruct Hae1 as [Hflag1 Hactive1].
  assert (Hcond :
    (isAudio1Active p1 && is_some (audio2 p1)
     || negb (isAudio1Active p1) && is_some (audio1 p1))
    = is_some (standbyAudioElement p)).
  { rewrite <- Hsb1. unfold standbyAudioElement, standbySlot, slot_get.
    destruct (isAudio1Active p1); simpl; [apply orb_false_r | reflexivity]. }
  unfold p2, buffering.
  destruct (priorityTracks (state p)) as [|t0 rest0] eqn:Hprio;
    cbn [is_empty negb andb when].
  - cbv beta. rewrite Hcond.
    destruct (standbyAudioElement p) as [standby|] eqn:Hsb;
      cbn [is_some when].
    + pose proof (bufferNextTrack_state p1) as Hbs.
      pose proof (bufferNextTrack_activeElement p1) as Hba.
      assert (Hbshadow : nonShuffledNextTracks (after (bufferNextTrack p1))
                         = nonShuffledNextTracks p1).
      { assert (H : preserves nonShuffledNextTracks bufferNextTrack)
          by (unfold bufferNextTrack, destroy; frame).
        apply H. }
      apply activeElement_parts in Hba. destruct Hba as [Hbflag Hbactive].
      rewrite Hbs, Hbshadow, Hbflag, Hbactive, Hstate1, Hshadow1, Hflag1,
        Hactive1, ?Hprio.
      repeat split.
      assert (Hhead2 : headOfQueue (after (bufferNextTrack p1)) = headOfQueue p1)
        by (unfold headOfQueue; rewrite Hbs; reflexivity).
      rewrite Hhead2.
      destruct (headOfQueue p1) as [track|] eqn:Hhead.
      * apply bufferNextTrack_standby. exact Hhead.
      * assert (Hsame : after (bufferNextTrack p1) = p1).
        { unfold bufferNextTrack. unfold headOfQueue in Hhead.
          destruct (priorityTracks (state p1)); [|discriminate].
          destruct (nextTracks (state p1)); [|discriminate]. reflexivity. }
        rewrite Hsame, Hsb1. reflexivity.
    + change (after (ret tt p1)) with p1.
      rewrite Hstate1, Hshadow1, Hflag1, Hactive1, Hsb1, ?Hprio. repeat split.
  - change (after (ret tt p1)) with p1.
    rewrite Hstate1, Hshadow1, Hflag1, Hactive1, Hsb1, ?Hprio. repeat split.
Qed.

Lemma removePriorityTrack_never_throws (id' : string) :
  never_throws (removePriorityTrack id').
Proof. unfold removePriorityTrack. no_throw. Qed.

(** [removePriorityTrack(id)] keeps, in their order, the priority tracks
    whose [id] differs, and [clearPriorityTracks()] empties the list.  Neither
    touches the other lists or the two slots: the standby element is not
    buffered again and keeps the source it had, and no element is
    released. *)
Theorem priority_removals_leave_the_buffer (id' : string) (p : Player) :
  let removed := after (removePriorityTrack id' p) in
  let cleared := after (clearPriorityTracks p) in
  (forall track,
     In track (priorityTracks (state removed))
     <-> In track (priorityTracks (state p)) /\ id track <> id') /\
  (exists dropped,
     Permutation (priorityTracks (state p))
       (priorityTracks (state removed) ++ dropped) /\
     Forall (fun track => id track = id') dropped) /\
  priorityTracks (state cleared) = [] /\
  besidePriorityTracks removed = besidePriorityTracks p /\
  besidePriorityTracks cleared = besidePriorityTracks p /\
  sinks removed = sinks p /\ sinks cleared = sinks p /\
  released removed = released p /\ released cleared = released p /\
  threw (removePriorityTrack id' p) = false /\
  threw (clearPriorityTracks p) = false.
Proof.
  cbv zeta.
  assert (Hremoved :
    priorityTracks (state (after (removePriorityTrack id' p)))
    = filter (fun track => negb (String.eqb (id track) id'))
        (priorityTracks (state p))).
  { destruct p as [host st ots ote osc oe sh act a1 a2 shadow rel log calls].
    destruct osc; reflexivity. }
  split; [|split].
  - intro track. rewrite Hremoved, filter_In.
    rewrite negb_true_iff.
    split; intros [Hin Hid]; (split; [exact Hin|]).
    + intro Heq. apply String.eqb_eq in Heq. congruence.
    + apply String.eqb_neq. exact Hid.
  - exists (filter (fun track => String.eqb (id track) id')
              (priorityTracks (state p))).
    rewrite Hremoved. clear Hremoved. split.
    + induction (priorityTracks (state p)) as [|t l IH]; [constructor|].
      cbn [filter]. destruct (String.eqb (id t) id'); cbn [negb app].
      * apply Permutation_cons_app. exact IH.
      * constructor. exact IH.
    + apply Forall_forall. intros t Ht. apply filter_In in Ht.
      apply String.eqb_eq, Ht.
  - destruct p as [host st ots ote osc oe sh act a1 a2 shadow rel log calls].
    destruct osc; repeat split; reflexivity.
Qed.

(** ** What the shuffle commands leave alone *)

(** [enableShuffle] and [disableShuffle] write to [isShuffled] and
    [nextTracks] only: the current track, the priority list (which no
    shuffle strategy ever sees), the history, the shadow list and the two
    slots are as before, whatever the shuffle strategy is and also when it
    throws. *)
Theorem shuffle_commands_write_nextTracks_only (p : Player) :
  besideNextTracks (after (enableShuffle p)) = besideNextTracks p /\
  besideNextTracks (after (disableShuffle p)) = besideNextTracks p /\
  nonShuffledNextTracks (after (enableShuffle p)) = nonShuffledNextTracks p /\
  nonShuffledNextTracks (after (disableShuffle p)) = nonShuffledNextTracks p /\
  isShuffled (state (after (enableShuffle p))) = true /\
  isShuffled (state (after (disableShuffle p))) = false.
Proof.
  assert (He : preserves besideNextTracks enableShuffle)
    by (unfold enableShuffle; frame).
  assert (Hd : preserves besideNextTracks disableShuffle)
    by (unfold disableShuffle; frame).
  assert (Hes : preserves nonShuffledNextTracks enableShuffle)
    by (unfold enableShuffle; frame).
  assert (Hds : preserves nonShuffledNextTracks disableShuffle)
    by (unfold disableShuffle; frame).
  repeat split; try (apply He || apply Hd || apply Hes || apply Hds).
  - unfold enableShuffle. rewrite bind_unit by reflexivity. cbv beta.
    set (flag := fun q : Player => isShuffled (state q)).
    match goal with
    | |- isShuffled (state (after (?rest ?p1))) = true =>
        assert (Hrest : preserves flag rest) by frame;
        exact (Hrest p1)
    end.
  - destruct p as [host st ots ote osc oe sh act a1 a2 shadow rel log calls].
    destruct osc; reflexivity.
Qed.

(** ** Pausing, resuming and seeking *)

Ltac open_player p :=
  destruct p as [host st ots ote osc oe sh act a1 a2 shadow rel log calls];
  destruct host as [can rnd];
  destruct st as [v ip pos rm ish cur prio next prev].

Ltac open_slots a1 a2 :=
  destruct
    a1 as [[v1 src1 time1 loop1 paused1 preload1 h1 prog1 end1 can1]|],
    a2 as [[v2 src2 time2 loop2 paused2 preload2 h2 prog2 end2 can2]|].

(** [pause()] pauses the active element and sets [isPaused]; observers of
    the state hear of it only when [isPaused] was [false] before, so that a
    second [pause()] changes nothing at all. *)
Theorem pause_publishes_a_change_only (p : Player) :
  let p' := after (pause p) in
  state p' = set_isPaused true (state p) /\
  isAudio1Active p' = isAudio1Active p /\
  activeAudioElement p'
  = option_map (Audio.set_paused true) (activeAudioElement p) /\
  standbyAudioElement p' = standbyAudioElement p /\
  notifications p'
  = notifications p ++
    (if negb (isPaused (state p)) && onStateChanged p
     then [StateChanged (state p')] else []) /\
  after (pause p') = p'.
Proof.
  open_player p. open_slots a1 a2.
  all: destruct act, ip, osc; cbv -[app]; rewrite ?app_nil_r; repeat split; reflexivity.
Qed.

(** [play()] on an instance with an active element: when the backend
    resolves [audio.play()], the element runs, [isPaused] is [false] and the
    new state is published; when it rejects, the rejection is caught and
    handed to [onError], and neither the state nor a slot has changed: an
    instance that was paused stays paused, and nothing is published. *)
Theorem play_resolves_or_reports (p : Player) (a : Audio.t) :
  activeAudioElement p = Some a ->
  let p' := after (play p) in
  threw (play p) = false /\
  isAudio1Active p' = isAudio1Active p /\
  standbyAudioElement p' = standbyAudioElement p /\
  if canPlay (backend p) (Audio.src a)
  then state p' = set_isPaused false (state p) /\
       activeAudioElement p' = Some (Audio.set_paused false a) /\
       notifications p'
       = notifications p ++
         (if onStateChanged p then [StateChanged (state p')] else [])
  else state p' = state p /\
       activeAudioElement p' = Some a /\
       notifications p'
       = notifications p ++
         (if onError p then [Error (Caught (PlayRejected (Audio.src a)))] else []).
Proof.
  open_player p. open_slots a1 a2.
  all: destruct act; cbv [activeAudioElement activeSlot slot_get isAudio1Active
                            audio1 audio2];
    intro Ha; try discriminate Ha; injection Ha as <-.
  all: cbv -[app]; destruct (can _); destruct osc, oe; cbv -[app]; rewrite ?app_nil_r;
    repeat split; reflexivity.
Qed.

Lemma play_resolves_or_reports_witness :
  threw (play playingA) = false /\
  state (after (play playingA)) = set_isPaused false (state playingA).
Proof.
  pose proof (play_resolves_or_reports playingA sinkOfA eq_refl) as H.
  cbv zeta in H. destruct H as (H1 & _ & _ & H2).
  split; [exact H1 | exact (proj1 H2)].
Defined.

Lemma pause_effect (p : Player) :
  state (after (pause p)) = set_isPaused true (state p) /\
  backend (after (pause p)) = backend p /\
  isAudio1Active (after (pause p)) = isAudio1Active p /\
  activeAudioElement (after (pause p))
  = option_map (Audio.set_paused true) (activeAudioElement p) /\
  standbyAudioElement (after (pause p)) = standbyAudioElement p.
Proof.
  open_player p. open_slots a1 a2.
  all: destruct act, ip, osc; cbv; repeat split; reflexivity.
Qed.

Lemma play_on_active (p : Player) (a : Audio.t) :
  activeAudioElement p = Some a ->
  canPlay (backend p) (Audio.src a) = true ->
  state (after (play p)) = set_isPaused false (state p) /\
  backend (after (play p)) = backend p /\
  isAudio1Active (after (play p)) = isAudio1Active p /\
  activeAudioElement (after (play p)) = Some (Audio.set_paused false a) /\
  standbyAudioElement (after (play p)) = standbyAudioElement p.
Proof.
  intros Ha Hcan. rewrite play_when_active by congruence.
  revert Ha Hcan. open_player p. open_slots a1 a2.
  all: destruct act; cbv [activeAudioElement activeSlot slot_get isAudio1Active
                            audio1 audio2];
    intro Ha; try discriminate Ha; injection Ha as <-.
  all: cbv [backend canPlay Audio.src]; intro Hcan.
  all: cbv -[app]; rewrite Hcan; destruct osc; repeat split; reflexivity.
Qed.

(** [togglePlay()] on an instance with an active element that the backend
    can play flips [isPaused], and the element runs exactly when the
    instance is not paused; two calls bring both back. *)
Theorem togglePlay_flips (p : Player) (a : Audio.t) :
  activeAudioElement p = Some a ->
  canPlay (backend p) (Audio.src a) = true ->
  let p' := after (togglePlay p) in
  let p'' := after (togglePlay p') in
  state p' = set_isPaused (negb (isPaused (state p))) (state p) /\
  activeAudioElement p'
  = Some (Audio.set_paused (negb (isPaused (state p))) a) /\
  state p'' = state p /\
  activeAudioElement p''
  = Some (Audio.set_paused (isPaused (state p))
            (Audio.set_paused (negb (isPaused (state p))) a)) /\
  isAudio1Active p'' = isAudio1Active p /\
  standbyAudioElement p'' = standbyAudioElement p.
Proof.
  intros Ha Hcan. cbv zeta.
  assert (Hstate : forall s b,
            set_isPaused b (set_isPaused (negb b) s) = set_isPaused b s)
    by (intros [] []; reflexivity).
  assert (Hsame : forall s, set_isPaused (isPaused s) s = s)
    by (intros []; reflexivity).
  set (p' := after (togglePlay p)).
  assert (Hp' : p' = if isPaused (state p) then after (play p)
                     else after (pause p))
    by (unfold p', togglePlay; destruct (isPaused (state p)); reflexivity).
  clearbody p'.
  destruct (isPaused (state p)) eqn:Hpaused; cbn [negb]; subst p'.
  - destruct (play_on_active p a Ha Hcan) as (Hs & Hb & Hf & He & Hsb).
    set (p' := after (play p)) in *.
    unfold togglePlay. rewrite Hs. cbn [isPaused set_isPaused].
    destruct (pause_effect p') as (Hs' & Hb' & Hf' & He' & Hsb').
    rewrite Hs', Hf', He', Hsb', Hs, Hf, He, Hsb.
    rewrite <- Hpaused at 2. rewrite Hstate, <- Hpaused, Hsame.
    repeat split; reflexivity.
  - destruct (pause_effect p) as (Hs & Hb & Hf & He & Hsb).
    set (p' := after (pause p)) in *.
    rewrite Ha in He. cbn [option_map] in He.
    assert (Hcan' : canPlay (backend p') (Audio.src (Audio.set_paused true a)) = true)
      by (rewrite Hb; destruct a; exact Hcan).
    unfold togglePlay. rewrite Hs. cbn [isPaused set_isPaused].
    destruct (play_on_active p' _ He Hcan') as (Hs' & Hb' & Hf' & He' & Hsb').
    rewrite Hs', Hf', He', Hsb', Hs, Hf, He, Hsb.
    rewrite <- Hpaused at 2. rewrite Hstate, <- Hpaused, Hsame.
    repeat split; reflexivity.
Qed.

Lemma togglePlay_flips_witness :
  isPaused (state (after (togglePlay playingA))) = true.
Proof.
  pose proof (togglePlay_flips playingA sinkOfA eq_refl eq_refl) as H.
  cbv zeta in H. destruct H as [H _]. rewrite H. reflexivity.
Defined.

(** [seek(position)] moves the active element to [Math.max(0, position)]
    and to nothing else; the position the next [progress] event publishes is
    therefore never negative.  Without an active element [seek] does
    nothing, not even a call to [onStateChanged], and [progress] publishes
    position 0. *)
Theorem seek_clamps_at_zero (position' : Q) (p : Player) :
  let p' := after (seek position' p) in
  let p'' := after (onPlayerProgress p') in
  threw (seek position' p) = false /\
  state p' = state p /\
  isAudio1Active p' = isAudio1Active p /\
  standbyAudioElement p' = standbyAudioElement p /\
  match activeAudioElement p with
  | Some a =>
      activeAudioElement p'
      = Some (Audio.set_currentTime
                (if Qle_bool 0 position' then position' else 0) a) /\
      position (state p'') = (if Qle_bool 0 position' then position' else 0)
  | None => p' = p /\ position (state p'') = 0
  end /\
  (0 <= position (state p''))%Q.
Proof.
  cbv zeta. unfold seek.
  set (target := if Qle_bool 0 position' then position' else 0).
  assert (Htarget : (0 <= target)%Q).
  { unfold target. destruct (Qle_bool 0 position') eqn:E;
      [apply Qle_bool_iff, E | apply Qle_refl]. }
  clearbody target.
  open_player p. open_slots a1 a2.
  all: destruct act, osc; cbv -[Qle]; repeat split;
    try reflexivity; try exact Htarget; apply Qle_refl.
Qed.

(** ** The end of a track *)

(** What the [ended] handler does depends on the repeat mode alone.  With
    [repeatFull] it does nothing.  With [repeatOnce] it goes down to
    [noRepeat] and takes [loop] off the active element, so that the next
    [ended] event moves on in the queue; the lists and the slots are as
    before.  With [noRepeat] it is [playNextTrack()]. *)
Theorem track_end_by_repeat_mode (p : Player) :
  let p' := after (onPlayerTrackEnd p) in
  threw (onPlayerTrackEnd p) = false /\
  match repeatMode (state p) with
  | repeatFull => p' = p
  | repeatOnce =>
      state p' = set_repeatMode noRepeat (state p) /\
      isAudio1Active p' = isAudio1Active p /\
      activeAudioElement p'
      = option_map (Audio.set_loop false) (activeAudioElement p) /\
      standbyAudioElement p' = standbyAudioElement p /\
      after (onPlayerTrackEnd p') = after (playNextTrack None p')
  | noRepeat => p' = after (playNextTrack None p)
  end.
Proof.
  cbv zeta. split.
  { assert (H : never_throws onPlayerTrackEnd).
    { pose proof playNextTrack_never_throws. pose proof setRepeatMode_never_throws.
      unfold onPlayerTrackEnd. no_throw. }
    apply H. }
  set (p' := after (onPlayerTrackEnd p)).
  assert (Hp' : p' = match repeatMode (state p) with
                     | repeatOnce => after (setRepeatMode noRepeat p)
                     | noRepeat => after (try_catch (playNextTrack None) reportError p)
                     | repeatFull => p
                     end)
    by (unfold p', onPlayerTrackEnd; destruct (repeatMode (state p)); reflexivity).
  clearbody p'.
  destruct (repeatMode (state p)) eqn:Hmode; subst p'.
  - rewrite try_catch_returned by apply playNextTrack_never_throws. reflexivity.
  - assert (Hset :
      state (after (setRepeatMode noRepeat p)) = set_repeatMode noRepeat (state p) /\
      isAudio1Active (after (setRepeatMode noRepeat p)) = isAudio1Active p /\
      activeAudioElement (after (setRepeatMode noRepeat p))
      = option_map (Audio.set_loop false) (activeAudioElement p) /\
      standbyAudioElement (after (setRepeatMode noRepeat p)) = standbyAudioElement p).
    { clear Hmode. open_player p. open_slots a1 a2.
      all: destruct act, osc; cbv; repeat split; reflexivity. }
    destruct Hset as (Hs & Hf & Ha & Hsb).
    repeat split; try assumption.
    unfold onPlayerTrackEnd. rewrite Hs. cbn [repeatMode set_repeatMode].
    rewrite try_catch_returned by apply playNextTrack_never_throws. reflexivity.
  - reflexivity.
Qed.

(** ** Skipping past the end of the queue *)

(** [nextTrack()] with both queues empty: the current track goes to the
    history and [currentTrack] becomes undefined, but the slots do not
    change roles and the active element stays where it is, paused, with its
    source and its handlers.  A [play()] after that does not look at the
    queue: it resumes that element, and the instance plays with no current
    track. *)
Theorem nextTrack_past_the_end (p : Player) (a : Audio.t) :
  activeAudioElement p = Some a ->
  priorityTracks (state p) = [] ->
  nextTracks (state p) = [] ->
  let p' := after (nextTrack p) in
  let p'' := after (play p') in
  currentTrack (state p') = None /\
  isPaused (state p') = true /\
  previousTracks (state p')
  = match currentTrack (state p) with
    | Some current => current :: previousTracks (state p)
    | None => previousTracks (state p)
    end /\
  isAudio1Active p' = isAudio1Active p /\
  activeAudioElement p' = Some (Audio.set_paused true a) /\
  standbyAudioElement p' = standbyAudioElement p /\
  (canPlay (backend p) (Audio.src a) = true ->
   currentTrack (state p'') = None /\
   isPaused (state p'') = false /\
   activeAudioElement p'' = Some (Audio.set_paused false (Audio.set_paused true a))).
Proof.
  intros Ha Hprio Hnext. cbv zeta.
  assert (Hskip :
    currentTrack (state (after (nextTrack p))) = None /\
    isPaused (state (after (nextTrack p))) = true /\
    previousTracks (state (after (nextTrack p)))
    = match currentTrack (state p) with
      | Some current => current :: previousTracks (state p)
      | None => previousTracks (state p)
      end /\
    isAudio1Active (after (nextTrack p)) = isAudio1Active p /\
    activeAudioElement (after (nextTrack p)) = Some (Audio.set_paused true a) /\
    standbyAudioElement (after (nextTrack p)) = standbyAudioElement p /\
    backend (after (nextTrack p)) = backend p).
  { revert Ha Hprio Hnext. open_player p. open_slots a1 a2.
    all: destruct act; cbv [activeAudioElement activeSlot slot_get isAudio1Active
                              audio1 audio2];
      intro Ha; try discriminate Ha; injection Ha as <-.
    all: cbv [state priorityTracks nextTracks]; intros -> ->.
    all: destruct cur, ote, osc; cbv; repeat split; reflexivity. }
  destruct Hskip as (Hcur & Hpaused & Hprev & Hflag & Hact & Hsb & Hhost).
  do 6 (split; [assumption|]).
  intro Hcan.
  assert (Hcan' : canPlay (backend (after (nextTrack p)))
                    (Audio.src (Audio.set_paused true a)) = true)
    by (rewrite Hhost; destruct a; exact Hcan).
  destruct (play_on_active _ _ Hact Hcan') as (Hs & _ & _ & He & _).
  split; [|split].
  - rewrite Hs. cbn [currentTrack set_isPaused]. exact Hcur.
  - rewrite Hs. reflexivity.
  - exact He.
Qed.

Lemma nextTrack_past_the_end_witness :
  currentTrack (state (after (nextTrack playingZ))) = None.
Proof.
  pose proof (nextTrack_past_the_end playingZ
                (Audio.mk 50 "z.mp3" 0 false false "" None
                   (Some PlayerProgress) (Some PlayerTrackEnd) (Some BufferNextTrack))
                eq_refl eq_refl eq_refl) as H.
  cbv zeta in H. exact (proj1 H).
Defined.

(** ** The active element and the current track *)















(** ** Going back and the shadow list *)

Lemma previousTrack_staged_shadow :
  preserves nonShuffledNextTracks previousTrack_staged.
Proof.
  unfold previousTrack_staged, goBack, requeueCurrent, announceRestart. frame.
Qed.

Lemma previousTrack_shadow : preserves nonShuffledNextTracks previousTrack.
Proof.
  intro p. rewrite previousTrack_stages. apply previousTrack_staged_shadow.
Qed.

(** [previousTrack()] never writes to [nonShuffledNextTracks].  When it goes
    back from a current track, that track is put at the front of
    [nextTracks] only: on an instance whose shadow list was equal to
    [nextTracks] the two differ afterwards, and a [disableShuffle()] sets
    [nextTracks] to the shadow list, which drops the track again. *)
Theorem previousTrack_leaves_the_shadow_list
    (p : Player) (current lastPlayed : PlayerTrack) (rest : list PlayerTrack) :
  restarts p = false ->
  currentTrack (state p) = Some current ->
  previousTracks (state p) = lastPlayed :: rest ->
  let p' := after (previousTrack p) in
  nextTracks (state p') = current :: nextTracks (state p) /\
  nonShuffledNextTracks p' = nonShuffledNextTracks p /\
  nextTracks (state (after (disableShuffle p'))) = nonShuffledNextTracks p /\
  (nonShuffledNextTracks p = nextTracks (state p) ->
   nextTracks (state p') <> nonShuffledNextTracks p' /\
   nextTracks (state (after (disableShuffle p'))) = nextTracks (state p)).
Proof.
  intros Hrestarts Hcurrent Hprevious. cbv zeta.
  pose proof (previousTrack_queues p) as Hq.
  rewrite Hrestarts, Hprevious, Hcurrent in Hq.
  unfold queues in Hq. injection Hq as _ _ Hnext _.
  pose proof (previousTrack_shadow p) as Hshadow.
  assert (Hdisable : forall q,
            nextTracks (state (after (disableShuffle q))) = nonShuffledNextTracks q).
  { intro q. destruct q as [host st ots ote osc oe sh act a1 a2 shadow rel log calls].
    destruct osc; reflexivity. }
  rewrite Hdisable, Hshadow, Hnext.
  split; [reflexivity|]. split; [reflexivity|]. split; [reflexivity|].
  intro Hsame. split; [|exact Hsame].
  rewrite Hsame. intro Heq. apply (f_equal (@List.length _)) in Heq.
  cbn [List.length] in Heq. lia.
Qed.

Lemma previousTrack_leaves_the_shadow_list_witness :
  nextTracks (state (after (previousTrack playingB))) = [trackB; trackC] /\
  nonShuffledNextTracks (after (previousTrack playingB)) = [trackC] /\
  nextTracks (state (after (disableShuffle (after (previousTrack playingB)))))
  = [trackC].
Proof.
  pose proof (previousTrack_leaves_the_shadow_list playingB trackB trackA []
                eq_refl eq_refl eq_refl) as H.
  cbv zeta in H. destruct H as (H1 & H2 & H3 & _).
  split; [exact H1 | split; [exact H2 | exact H3]].
Defined.

(** ** From the buffer to the active slot *)









(** ** [getTimeDisplay] on negative arguments *)




